(** * The keyed data source of motown.js

    A shallow embedding of [keyedDataAdapter] and [MT.UI.KeyedDataSource]
    (src/motown.js, lines 651-973): an array of item objects ([_items]) and
    an object used as a map from keys to the same item objects ([_keyMap]).

    Item objects are shared between the array and the map and are mutated in
    place ([index], [_moved]), so they live in an explicit heap and the two
    containers hold references.  A JS object used as a map is a [gmap] of its
    own properties, keyed by property names; which names it inherits from
    [Object.prototype] is a parameter of the adapter ([inherited]).  Numbers
    are integers. *)

From stdpp Require Import base option list gmap strings pretty sorting.
From Stdlib Require Import ZArith Lia.

Open Scope Z_scope.

(** ** JavaScript values *)

Inductive value :=
  | VUndefined
  | VNull
  | VBool (b : bool)
  | VNum (n : Z)
  | VStr (s : string).

#[global] Instance value_eq_dec : EqDecision value.
Proof. solve_decision. Defined.

(** ToBoolean: what [!v] and [v || w] test. *)
Definition truthy (v : value) : bool :=
  match v with
  | VUndefined | VNull => false
  | VBool b => b
  | VNum n => negb (n =? 0)
  | VStr s => negb (String.eqb s "")
  end.

(** ToString, as applied to [k] by the property access [o[k]]; a number
    prints in decimal, as the integers of the model do (see [safe]). *)
Definition ToString (v : value) : string :=
  match v with
  | VUndefined => "undefined"
  | VNull => "null"
  | VBool true => "true"
  | VBool false => "false"
  | VNum n => pretty n
  | VStr s => s
  end.

(** The numbers of the model are the integers JavaScript holds exactly and
    prints in decimal: those below 2^53 in absolute value. *)
Definition safe (v : value) : Prop :=
  match v with
  | VNum n => Z.abs n < 2 ^ 53
  | _ => True
  end.

(** [a || b] *)
Definition or_else (a b : value) : value := if truthy a then a else b.

(** A plain object (a payload): its own properties. *)
Abbreviation object := (gmap string value).

(** [o[p]] *)
Definition get_prop (o : object) (p : string) : value :=
  default VUndefined (o !! p).

(** ** Arrays *)

(** [Array.prototype.splice(start, deleteCount, ...ins)], with the clamping
    of both arguments; the result is the array as it is left. *)
Definition splice {A} (start deleteCount : Z) (ins : list A) (l : list A) : list A :=
  let len := Z.of_nat (length l) in
  let s := if start <? 0 then Z.max (len + start) 0 else Z.min start len in
  let d := Z.min (Z.max deleteCount 0) (len - s) in
  take (Z.to_nat s) l ++ ins ++ drop (Z.to_nat (s + d)) l.

(** [a[i]]: [None] is [undefined]. *)
Definition at_index {A} (l : list A) (i : Z) : option A :=
  if i <? 0 then None else l !! Z.to_nat i.

(** [Array.prototype.sort(cmp)]: a stable sort; an element goes in front of
    the first one it does not compare greater than.  That is the engine's
    order for a comparison function that is consistent on the elements; for
    any other the language leaves the order to the engine. *)
Fixpoint sort_insert {A} (cmp : A → A → Z) (x : A) (l : list A) : list A :=
  match l with
  | [] => [x]
  | y :: l' => if cmp x y <=? 0 then x :: y :: l' else y :: sort_insert cmp x l'
  end.

Fixpoint array_sort {A} (cmp : A → A → Z) (l : list A) : list A :=
  match l with
  | [] => []
  | x :: l' => sort_insert cmp x (array_sort cmp l')
  end.

(** The three-way contract of a comparator (a consistent comparison
    function): reflexive, with opposite signs when the arguments are
    swapped, and transitive. *)
Record consistent {A} (cmp : A → A → Z) : Prop := {
  cmp_refl : ∀ a, cmp a a = 0;
  cmp_swap : ∀ a b, Z.sgn (cmp b a) = - Z.sgn (cmp a b);
  cmp_trans : ∀ a b c, cmp a b <= 0 → cmp b c <= 0 → cmp a c <= 0
}.

(** The same contract, asked only of the elements that are compared. *)
Definition consistent_on {A} (l : list A) (cmp : A → A → Z) : Prop :=
  (∀ a, a ∈ l → cmp a a = 0) ∧
  (∀ a b, a ∈ l → b ∈ l → Z.sgn (cmp b a) = - Z.sgn (cmp a b)) ∧
  (∀ a b c, a ∈ l → b ∈ l → c ∈ l →
     cmp a b <= 0 → cmp b c <= 0 → cmp a c <= 0).

(** ** Items, promises, errors *)

(** A reference to an item object. *)
Abbreviation loc := nat.

(** An item object [{key, data}], with the two properties that are added
    later: [index] ([None]: not a number yet) and [_moved]. *)
Record item := Item {
  key : value;
  data : object;
  index : option Z;
  _moved : bool
}.

#[global] Instance item_eq_dec : EqDecision item.
Proof. solve_decision. Defined.

Definition with_index (i : Z) (it : item) : item :=
  {| key := key it; data := data it; index := Some i; _moved := _moved it |}.

Definition with_moved (b : bool) (it : item) : item :=
  {| key := key it; data := data it; index := index it; _moved := b |}.

(** [WinJS.UI.FetchError.doesNotExist], a name of the host library. *)
Definition doesNotExist : string := "doesNotExist".

(** [new WinJS.ErrorFromName(name)], and the [key] that [itemsFromKey] adds. *)
Record error := Error {
  name : string;
  error_key : option value
}.

Definition ErrorFromName (n : string) : error :=
  {| name := n; error_key := None |}.

(** [WinJS.Promise.wrap] and [WinJS.Promise.wrapError]: completed promises. *)
Inductive promise (A : Type) :=
  | wrap (a : A)
  | wrapError (e : error).
Arguments wrap {A} a.
Arguments wrapError {A} e.

(** What the two fetch methods resolve to; [None] is [undefined]. *)
Record fetchResult := FetchResult {
  items : list loc;
  offset : option Z;
  absoluteIndex : option Z;
  totalCount : Z
}.

(** ** The notification handler and the calls the data source makes *)

Inductive handler := ListDataNotificationHandler.

Inductive notification :=
  | reload
  | movedToStart (k : value)
  | movedAfter (k prev : value).

#[global] Instance notification_eq_dec : EqDecision notification.
Proof. solve_decision. Defined.

(** ** The adapter object, the heap of item objects, the sink *)

Record state := State {
  _binding : bool;
  _keyProperty : string;
  _items : list loc;
  _keyMap : gmap string loc;
  _editing : bool;
  _notificationHandler : option handler;
  heap : list item;
  sink : list notification
}.

Definition blank : state :=
  {| _binding := false; _keyProperty := ""; _items := []; _keyMap := ∅;
     _editing := false; _notificationHandler := None; heap := []; sink := [] |}.

Definition set_binding (b : bool) (s : state) : state :=
  {| _binding := b; _keyProperty := _keyProperty s; _items := _items s;
     _keyMap := _keyMap s; _editing := _editing s;
     _notificationHandler := _notificationHandler s; heap := heap s; sink := sink s |}.

Definition set_keyProperty (p : string) (s : state) : state :=
  {| _binding := _binding s; _keyProperty := p; _items := _items s;
     _keyMap := _keyMap s; _editing := _editing s;
     _notificationHandler := _notificationHandler s; heap := heap s; sink := sink s |}.

Definition set_items (l : list loc) (s : state) : state :=
  {| _binding := _binding s; _keyProperty := _keyProperty s; _items := l;
     _keyMap := _keyMap s; _editing := _editing s;
     _notificationHandler := _notificationHandler s; heap := heap s; sink := sink s |}.

Definition set_keyMap (m : gmap string loc) (s : state) : state :=
  {| _binding := _binding s; _keyProperty := _keyProperty s; _items := _items s;
     _keyMap := m; _editing := _editing s;
     _notificationHandler := _notificationHandler s; heap := heap s; sink := sink s |}.

Definition set_editing (b : bool) (s : state) : state :=
  {| _binding := _binding s; _keyProperty := _keyProperty s; _items := _items s;
     _keyMap := _keyMap s; _editing := b;
     _notificationHandler := _notificationHandler s; heap := heap s; sink := sink s |}.

Definition set_handler (h : option handler) (s : state) : state :=
  {| _binding := _binding s; _keyProperty := _keyProperty s; _items := _items s;
     _keyMap := _keyMap s; _editing := _editing s;
     _notificationHandler := h; heap := heap s; sink := sink s |}.

Definition set_heap (h : list item) (s : state) : state :=
  {| _binding := _binding s; _keyProperty := _keyProperty s; _items := _items s;
     _keyMap := _keyMap s; _editing := _editing s;
     _notificationHandler := _notificationHandler s; heap := h; sink := sink s |}.

Definition notify (n : notification) (s : state) : state :=
  {| _binding := _binding s; _keyProperty := _keyProperty s; _items := _items s;
     _keyMap := _keyMap s; _editing := _editing s;
     _notificationHandler := _notificationHandler s; heap := heap s;
     sink := sink s ++ [n] |}.

(** ** Computations: a state, and a completion that is normal or a throw *)

(** [Unmodelled] is no exception of the code.  It ends a call in which the
    code has read a function of [Object.prototype] out of the mapping and goes
    on with it as if it were an item object (it writes [index] on it, splices
    it into the array): the model has no such objects and follows the call no
    further. *)
Inductive exn :=
  | TypeError
  | Unmodelled.

Inductive completion (A : Type) :=
  | Normal (a : A)
  | Throw (e : exn).
Arguments Normal {A} a.
Arguments Throw {A} e.

Definition M (A : Type) : Type := state → completion A * state.

Definition ret {A} (a : A) : M A := λ s, (Normal a, s).
Definition throw {A} (e : exn) : M A := λ s, (Throw e, s).
Definition bind {A B} (m : M A) (f : A → M B) : M B :=
  λ s, match m s with
       | (Normal a, s') => f a s'
       | (Throw e, s') => (Throw e, s')
       end.
Definition gets {A} (f : state → A) : M A := λ s, (Normal (f s), s).
Definition modify (f : state → state) : M unit := λ s, (Normal tt, f s).

Notation "x <- m ;; k" := (bind m (λ x, k))
  (at level 100, m at next level, right associativity).
Notation "m ;;; k" := (bind m (λ _, k))
  (at level 100, right associativity).

(** The state a computation leaves, and what it completes with. *)
Definition exec {A} (m : M A) (s : state) : state := snd (m s).
Definition result {A} (m : M A) (s : state) : completion A := fst (m s).

(** The object a property is read of; of [undefined], that throws a
    TypeError ([None] is [undefined]). *)
Definition the {A} (o : option A) : M A :=
  match o with
  | Some a => ret a
  | None => throw TypeError
  end.

Definition deref (r : loc) : M item := s <- gets heap ;; the (s !! r).

Definition update (r : loc) (f : item → item) : M unit :=
  modify (λ s, set_heap (alter f r (heap s)) s).

(** [{key: k, data: d}] *)
Definition alloc (k : value) (d : object) : M loc :=
  λ s, (Normal (length (heap s)),
        set_heap (heap s ++ [{| key := k; data := d; index := None; _moved := false |}]) s).

(** ** keyedDataAdapter (lines 652-808) *)

(** The constructor's [options]. *)
Record options := Options {
  binding : bool;
  keyProperty : option string
}.

(** What the constructor and [setData] are given: an array of plain
    objects, or something that is not an array. *)
Inductive input :=
  | IArray (l : list object)
  | INotArray (v : value).

(** [Array.isArray(data) ? data : []] *)
Definition input_list (d : input) : list object :=
  match d with IArray l => l | INotArray _ => [] end.

Section Adapter.

(** The names of the members every object inherits from [Object.prototype]
    ([constructor], [toString], ...; which ones depends on the engine).  What
    is found under such a name is a function: truthy, without [index],
    [_moved] or [data], and no element of [_items]. *)
Variable inherited : string → bool.

(** The item object a move goes on with, [o] being [this._keyMap[k]] as far
    as own properties go.  Where there is none, the code reads a property of
    [undefined], unless it finds an inherited function. *)
Definition the_item (k : string) (o : option loc) : M loc :=
  match o with
  | Some r => ret r
  | None => throw (if inherited k then Unmodelled else TypeError)
  end.

(** [WinJS.Binding.as], of the host library. *)
Variable Binding_as : object → object.

(** The index the host's data source passes along for a key when it
    forwards [moveAfter] to the adapter. *)
Variable adjustedIndex : state → value → Z.

Definition beginEdits : M unit := modify (set_editing true).

Definition endEdits : M unit := modify (set_editing false).

Definition setNotificationHandler (h : handler) : M unit :=
  modify (set_handler (Some h)).

Definition getCount : M (promise Z) :=
  len <- gets (λ s, Z.of_nat (length (_items s))) ;;
  ret (wrap len).

Definition itemsFromIndex (requestIndex countBefore countAfter : Z)
  : M (promise fetchResult) :=
  l <- gets _items ;;
  let len := Z.of_nat (length l) in
  if (len <=? requestIndex) || (requestIndex <? 0)
  then ret (wrapError (ErrorFromName doesNotExist))
  else ret (wrap {| items := l; offset := Some requestIndex;
                    absoluteIndex := None; totalCount := len |}).

Definition itemsFromKey (k : value) (countBefore countAfter : Z) (hints : value)
  : M (promise fetchResult) :=
  item <- gets (λ s, _keyMap s !! ToString k) ;;
  match item with
  | None =>
      if inherited (ToString k)
      then l <- gets _items ;;
           ret (wrap {| items := l; offset := None; absoluteIndex := None;
                        totalCount := Z.of_nat (length l) |})
      else ret (wrapError {| name := doesNotExist; error_key := Some k |})
  | Some r =>
      it <- deref r ;;
      l <- gets _items ;;
      ret (wrap {| items := l; offset := index it; absoluteIndex := index it;
                   totalCount := Z.of_nat (length l) |})
  end.

Definition insertAtEnd (k : value) (d : object) : M (promise loc) :=
  kp <- gets _keyProperty ;;
  let k' := or_else k (get_prop d kp) in
  r <- alloc k' d ;;
  modify (λ s, set_items (_items s ++ [r]) s) ;;;
  modify (λ s, set_keyMap (<[ToString k' := r]> (_keyMap s)) s) ;;;
  ret (wrap r).

Fixpoint _findIndex_from (i : Z) (r : loc) (l : list loc) : Z :=
  match l with
  | [] => -1
  | x :: l' => if decide (r = x) then i else _findIndex_from (i + 1) r l'
  end.

Definition _findIndex (r : loc) : M Z :=
  l <- gets _items ;; ret (_findIndex_from 0 r l).

(** [if (typeof item.index !== 'number') item.index = this._findIndex(item)] *)
Definition assign_index (r : loc) : M unit :=
  it <- deref r ;;
  match index it with
  | Some _ => ret tt
  | None => i <- _findIndex r ;; update r (with_index i)
  end.

Definition moveAfter (k prevKey : value) (currIdx prevItemIdx : Z)
  : M (promise value) :=
  item <- gets (λ s, _keyMap s !! ToString k) ;;
  let newIdx := prevItemIdx + 1 in
  let delta := if currIdx <? newIdx then 0 else 1 in
  r <- the_item (ToString k) item ;;
  it <- deref r ;;
  (if _moved it
   then update r (with_moved false)
   else modify (λ s, set_items (splice newIdx 0 [r] (_items s)) s) ;;;
        modify (λ s, set_items (splice (currIdx + delta) 1 [] (_items s)) s)) ;;;
  ret (wrap VNull).

Definition moveToStart (k : value) : M (promise value) :=
  item <- gets (λ s, _keyMap s !! ToString k) ;;
  r <- the_item (ToString k) item ;;
  assign_index r ;;;
  it <- deref r ;;
  (if _moved it
   then update r (with_moved false)
   else match index it with
        | Some i =>
            if 0 <? i
            then modify (λ s, set_items (splice i 1 [] (_items s)) s) ;;;
                 modify (λ s, set_items (splice 0 0 [r] (_items s)) s)
            else ret tt
        | None => ret tt
        end) ;;;
  ret (wrap VNull).

Definition moveToEnd (k : value) : M (promise value) :=
  item <- gets (λ s, _keyMap s !! ToString k) ;;
  r <- the_item (ToString k) item ;;
  assign_index r ;;;
  it <- deref r ;;
  (if _moved it
   then update r (with_moved false)
   else match index it with
        | Some i =>
            len <- gets (λ s, Z.of_nat (length (_items s))) ;;
            if i <? len - 1
            then modify (λ s, set_items (splice i 1 [] (_items s)) s) ;;;
                 modify (λ s, set_items (_items s ++ [r]) s)
            else ret tt
        | None => ret tt
        end) ;;;
  ret (wrap VNull).

(** Without an own entry nothing is removed: [undefined] is falsy, and an
    inherited function has no [index] of its own and is not in the array, so
    [_findIndex] gives -1. *)
Definition remove (k : value) : M (promise value) :=
  item <- gets (λ s, _keyMap s !! ToString k) ;;
  match item with
  | Some r =>
      it <- deref r ;;
      idx <- match index it with
             | Some i => ret i
             | None => _findIndex r
             end ;;
      if 0 <=? idx
      then modify (λ s, set_items (splice idx 1 [] (_items s)) s) ;;;
           modify (λ s, set_keyMap (delete (ToString k) (_keyMap s)) s)
      else ret tt
  | None => ret tt
  end ;;;
  ret (wrap VNull).

(** The loop of [_initItems]: each plain object becomes an item object.  The
    assignment to [_keyMap[key]] makes an own property (as it does in
    [insertAtEnd]); on an engine where [__proto__] is an accessor of
    [Object.prototype], that one name is the exception. *)
Fixpoint _initItems_loop (l : list object) : M unit :=
  match l with
  | [] => ret tt
  | o :: l' =>
      kp <- gets _keyProperty ;;
      b <- gets _binding ;;
      let k := get_prop o kp in
      r <- alloc k (if b then Binding_as o else o) ;;
      modify (λ s, set_items (_items s ++ [r]) s) ;;;
      modify (λ s, set_keyMap (<[ToString k := r]> (_keyMap s)) s) ;;;
      _initItems_loop l'
  end.

Definition _initItems (d : input) (preventReload : bool) : M unit :=
  let l := input_list d in
  modify (set_items []) ;;;
  modify (set_keyMap ∅) ;;;
  _initItems_loop l ;;;
  if preventReload then ret tt
  else h <- gets _notificationHandler ;;
       _ <- the h ;;
       modify (notify reload).

(** [new keyedDataAdapter(items, options)], run on the new object. *)
Definition keyedDataAdapter (d : input) (opts : option options) : M unit :=
  let opts := default {| binding := false; keyProperty := None |} opts in
  modify (set_binding (binding opts)) ;;;
  modify (set_keyProperty
            (match keyProperty opts with
             | Some p => if String.eqb p "" then "key" else p
             | None => "key"
             end)) ;;;
  _initItems d true.

(** ** MT.UI.KeyedDataSource (lines 862-972) *)

(** The data source derives from the host's [WinJS.UI.VirtualizedDataSource],
    which is not part of this repository.  Of its edit methods, which [sort]
    calls on [this], the model keeps what the adapter and the sink see: the
    call is recorded and forwarded to the adapter's method of the same name,
    [moveAfter] with the host's indices for the two keys. *)
Definition this_beginEdits : M unit := beginEdits.

Definition this_endEdits : M unit := endEdits.

Definition this_moveToStart (k : value) : M unit :=
  modify (notify (movedToStart k)) ;;;
  _ <- moveToStart k ;;
  ret tt.

Definition this_moveAfter (k prevKey : value) : M unit :=
  modify (notify (movedAfter k prevKey)) ;;;
  ci <- gets (λ s, adjustedIndex s k) ;;
  pi <- gets (λ s, adjustedIndex s prevKey) ;;
  _ <- moveAfter k prevKey ci pi ;;
  ret tt.

(** The constructor; the base constructor hands the adapter its
    notification handler. *)
Definition KeyedDataSource (d : input) (opts : option options) : M unit :=
  keyedDataAdapter d opts ;;;
  setNotificationHandler ListDataNotificationHandler.

(** [!!adapter._keyMap[key]] *)
Definition containsKey (k : value) : M bool :=
  gets (λ s, bool_decide (is_Some (_keyMap s !! ToString k)) || inherited (ToString k)).

(** [(adapter._keyMap[key] || {}).data]; [None] is [undefined], which is also
    what an inherited function has for [data]. *)
Definition get (k : value) : M (option object) :=
  item <- gets (λ s, _keyMap s !! ToString k) ;;
  match item with
  | Some r => it <- deref r ;; ret (Some (data it))
  | None => ret None
  end.

(** [(adapter._items[idx] || {}).data] *)
Definition getAt (idx : Z) : M (option object) :=
  item <- gets (λ s, at_index (_items s) idx) ;;
  match item with
  | Some r => it <- deref r ;; ret (Some (data it))
  | None => ret None
  end.

Definition setData (d : input) : M unit := _initItems d false.

Definition length_ : M Z := gets (λ s, Z.of_nat (length (_items s))).

(** [a.data], and [function(a, b) { return sortFn(a.data, b.data); }]. *)
Definition data_of (h : list item) (r : loc) : object :=
  from_option data ∅ (h !! r).

Definition by_data (sortFn : object → object → Z) (h : list item) (a b : loc) : Z :=
  sortFn (data_of h a) (data_of h b).

(** One turn of the loop of [sort], at index [i]. *)
Definition sort_step (i : Z) : M unit :=
  o <- gets (λ s, at_index (_items s) i) ;;
  r <- the o ;;
  it <- deref r ;;
  if decide (index it = Some i) then ret tt
  else
    prevKey <- (if i =? 0 then ret VNull
                else p <- gets (λ s, at_index (_items s) (i - 1)) ;;
                     q <- the p ;;
                     pit <- deref q ;;
                     ret (key pit)) ;;
    if truthy prevKey
    then update r (with_moved true) ;;; this_moveAfter (key it) prevKey
    else update r (with_moved true) ;;; this_moveToStart (key it).

(** The loop [for (i = ...; i < len; i++)], with [n] turns left. *)
Fixpoint sort_loop (n : nat) (i : Z) : M unit :=
  match n with
  | O => ret tt
  | S n' => sort_step i ;;; sort_loop n' (i + 1)
  end.

Definition sort (sortFn : object → object → Z) : M unit :=
  len <- gets (λ s, length (_items s)) ;;
  editing <- gets _editing ;;
  modify (λ s, set_items (array_sort (by_data sortFn (heap s)) (_items s)) s) ;;;
  (if editing then ret tt else this_beginEdits) ;;;
  sort_loop len 0 ;;;
  (if editing then ret tt else this_endEdits).

End Adapter.

(** ** The bijection between the mapping and the sequence *)

(** Every record of the sequence is in the mapping under its key, every entry
    of the mapping is a record of the sequence stored under that record's
    key, and no record occurs twice in the sequence. *)
Record bijection (s : state) : Prop := {
  bij_NoDup : NoDup (_items s);
  bij_items : ∀ r, r ∈ _items s →
    ∃ it, heap s !! r = Some it ∧ _keyMap s !! ToString (key it) = Some r;
  bij_keyMap : ∀ k r, _keyMap s !! k = Some r →
    r ∈ _items s ∧ ∃ it, heap s !! r = Some it ∧ ToString (key it) = k
}.

(** The records in sequence order, and the mapping from keys to records. *)
Definition records (s : state) : list item :=
  omap (λ r, heap s !! r) (_items s).

Definition mapping (s : state) : gmap string item :=
  omap (λ r, heap s !! r) (_keyMap s).

(** The cached index of the record a key names is unset, or is the
    record's position. *)
Definition cache_accurate (s : state) (k : value) : Prop :=
  ∀ r it i, _keyMap s !! ToString k = Some r → heap s !! r = Some it →
            index it = Some i → at_index (_items s) i = Some r.

(** ** Sequences of operations *)

Inductive op :=
  | OInsertAtEnd (k : value) (d : object)
  | ORemove (k : value)
  | OMoveToStart (k : value)
  | OMoveToEnd (k : value)
  | OMoveAfter (k prevKey : value) (currIdx prevItemIdx : Z).

Definition run (inherited : string → bool) (o : op) : M unit :=
  match o with
  | OInsertAtEnd k d => _ <- insertAtEnd k d ;; ret tt
  | ORemove k => _ <- remove k ;; ret tt
  | OMoveToStart k => _ <- moveToStart inherited k ;; ret tt
  | OMoveToEnd k => _ <- moveToEnd inherited k ;; ret tt
  | OMoveAfter k p ci pi => _ <- moveAfter inherited k p ci pi ;; ret tt
  end.

(** The states after each operation of a sequence. *)
Fixpoint states (inherited : string → bool) (ops : list op) (s : state) : list state :=
  match ops with
  | [] => []
  | o :: ops' =>
      exec (run inherited o) s :: states inherited ops' (exec (run inherited o) s)
  end.

(** What the operations ask of the caller: an inserted key is new (and not
    [__proto__], which some engines do not store as a property),
    [moveAfter] is given the positions the two records are at, and
    [moveToStart] and [moveToEnd] are not given the name of an inherited
    member in place of a key. *)
Definition legal (inherited : string → bool) (s : state) (o : op) : Prop :=
  match o with
  | OInsertAtEnd k d =>
      let k' := or_else k (get_prop d (_keyProperty s)) in
      ToString k' ≠ "__proto__" ∧ _keyMap s !! ToString k' = None
  | OMoveAfter k p ci pi =>
      ∃ r r', _keyMap s !! ToString k = Some r ∧ _keyMap s !! ToString p = Some r' ∧
              at_index (_items s) ci = Some r ∧ at_index (_items s) pi = Some r'
  | OMoveToStart k | OMoveToEnd k =>
      _keyMap s !! ToString k = None → inherited (ToString k) = false
  | ORemove _ => True
  end.

(** In addition: [remove], [moveToStart] and [moveToEnd] name a record
    whose cached index is unset or accurate. *)
Definition cache_safe (s : state) (o : op) : Prop :=
  match o with
  | ORemove k | OMoveToStart k | OMoveToEnd k => cache_accurate s k
  | _ => True
  end.

Fixpoint all_along (inherited : string → bool) (P : state → op → Prop)
    (ops : list op) (s : state) : Prop :=
  match ops with
  | [] => True
  | o :: ops' => P s o ∧ all_along inherited P ops' (exec (run inherited o) s)
  end.

(** ** What the methods do, in terms of the state *)

(** The index [moveToStart], [moveToEnd] and [remove] work with: the cached
    one, or else what [_findIndex] returns. *)
Definition cached (s : state) (r : loc) (it : item) : Z :=
  match index it with
  | Some i => i
  | None => _findIndex_from 0 r (_items s)
  end.

(** The record once [moveToStart] or [moveToEnd] is done with it. *)
Definition settle (c : Z) (it : item) : item :=
  {| key := key it; data := data it;
     index := Some (default c (index it)); _moved := false |}.

(** A new item object, at the end of the sequence and in the mapping. *)
Definition push_item (k : value) (d : object) (s : state) : state :=
  let r := length (heap s) in
  set_keyMap (<[ToString k := r]> (_keyMap s))
    (set_items (_items s ++ [r])
       (set_heap (heap s ++ [{| key := k; data := d; index := None; _moved := false |}]) s)).

(** The item object [_initItems] makes of a plain object: its key and its
    payload; and the loop as a whole. *)
Definition item_key (s : state) (o : object) : value :=
  get_prop o (_keyProperty s).

Definition item_data (Binding_as : object → object) (s : state) (o : object) : object :=
  if _binding s then Binding_as o else o.

Definition push_all (Binding_as : object → object) (l : list object) (s : state) : state :=
  foldl (λ s' o, push_item (item_key s o) (item_data Binding_as s o) s') s l.

(** The references of the sequence and of the mapping are in the heap. *)
Definition closed (s : state) : Prop :=
  (∀ r, r ∈ _items s → (r < length (heap s))%nat) ∧
  (∀ k r, _keyMap s !! k = Some r → (r < length (heap s))%nat).

(** Two heaps hold the same keys and payloads. *)
Definition same_content (h h' : list item) : Prop :=
  ∀ r, (λ it, (key it, data it)) <$> h' !! r = (λ it, (key it, data it)) <$> h !! r.

(** ** What the loop of [sort] tells the sink *)

(** The key in front of index [i], as the loop reads it. *)
Definition prev_is (s : state) (i : Z) (prev : value) : Prop :=
  if i =? 0 then prev = VNull
  else ∃ q pit, at_index (_items s) (i - 1) = Some q ∧ heap s !! q = Some pit ∧
                key pit = prev.

(** The call made for the record [r] found at index [i], after a record
    with key [prev]: none when the cached index of [r] is [i]. *)
Definition step_event (h : list item) (prev : value) (i : Z) (r : loc)
  : list notification :=
  match h !! r with
  | Some it =>
      if decide (index it = Some i) then []
      else [if truthy prev then movedAfter (key it) prev else movedToStart (key it)]
  | None => []
  end.

(** The calls of a whole pass over [l], from index [i] on. *)
Fixpoint replay (h : list item) (prev : value) (i : Z) (l : list loc)
  : list notification :=
  match l with
  | [] => []
  | r :: l' =>
      step_event h prev i r ++ replay h (from_option key VUndefined (h !! r)) (i + 1) l'
  end.

(** The call a pass makes for the record [r]. *)
Definition call_for (h : list item) (c : notification) (r : loc) : Prop :=
  ∃ it, h !! r = Some it ∧
        (c = movedToStart (key it) ∨ ∃ prev, c = movedAfter (key it) prev).

(** ** The scenario of the specification *)

(** [{key: k, v: v}] *)
Definition record_of (k : string) (v : Z) : object :=
  <["key" := VStr k]> (<["v" := VNum v]> ∅).

Definition abc : list object :=
  [record_of "a" 3; record_of "b" 1; record_of "c" 2].

(** [(x, y) => x.v - y.v]; a difference that is not a number counts as 0,
    as it does for [Array.prototype.sort]. *)
Definition by_v (x y : object) : Z :=
  match get_prop x "v", get_prop y "v" with
  | VNum a, VNum b => a - b
  | _, _ => 0
  end.

(** The host's parts where a scenario needs them: no binding, and 0 as the
    index passed along with every key. *)
Definition no_binding (o : object) : object := o.

Definition no_hint (s : state) (k : value) : Z := 0.

Definition abc_source : state :=
  exec (KeyedDataSource no_binding (IArray abc) None) blank.

(** The members ECMAScript 5 gives [Object.prototype]. *)
Definition Object_prototype (k : string) : bool :=
  bool_decide (k ∈ ["constructor"; "toString"; "toLocaleString"; "valueOf";
                    "hasOwnProperty"; "isPrototypeOf"; "propertyIsEnumerable"]).

(** ** Proof automation *)

(** Unfolds the computation of a method on a state. *)
Ltac unfold_m :=
  unfold exec, result, assign_index, _findIndex, update, deref, the, the_item;
  unfold bind, ret, throw, gets, modify; simpl.

(** Reassociates appends to the right. *)
Ltac reassoc := repeat (progress (rewrite <- ?app_assoc; simpl)); try done.

(** The item object [_initItems] makes of the plain object [o]. *)
Definition new_item (Binding_as : object → object) (s : state) (o : object) : item :=
  {| key := item_key s o; data := item_data Binding_as s o;
     index := None; _moved := false |}.

(** No record that is marked in [h'] was unmarked in [h]. *)
Definition no_new_marker (h h' : list item) : Prop :=
  ∀ x it', h' !! x = Some it' → _moved it' = true →
           ∃ it, h !! x = Some it ∧ _moved it = true.

(** * The utilities of the MT namespace *)

From Stdlib Require Import Ascii.

(** ** MT.toURL (lines 404-418) *)

(** An object as [Object.keys] lists it: the names, in order, with their
    values. *)
Abbreviation properties := (list (string * value)).

(** [params[name]] *)
Definition prop_value (ps : properties) (n : string) : value :=
  from_option snd VUndefined (find (λ p, String.eqb (fst p) n) ps).

Section ToURL.

(** [encodeURIComponent], of the host, on the string its argument is
    converted to. *)
Variable encodeURIComponent : string → string.

(** [params] is an object, or [None] when it is missing ([params || {}]). *)
Definition toURL (base : string) (params : option properties) : string :=
  let ps := default [] params in
  let names := fst <$> ps in
  match names with
  | [] => base
  | _ =>
      let pairs :=
        (λ n, String.concat "=" [n; encodeURIComponent (ToString (prop_value ps n))])
          <$> names in
      String.concat "?" [base; String.concat "&" pairs]
  end.

End ToURL.

(** Reading a URL back: the part in front of the first [?], and the pairs
    between the [&] behind it, each split at its first [=]. *)
Fixpoint occurs (c : ascii) (s : string) : bool :=
  match s with
  | EmptyString => false
  | String a s' => Ascii.eqb a c || occurs c s'
  end.

Fixpoint split_first (c : ascii) (s : string) : option (string * string) :=
  match s with
  | EmptyString => None
  | String a s' =>
      if Ascii.eqb a c then Some (EmptyString, s')
      else match split_first c s' with
           | Some (x, y) => Some (String a x, y)
           | None => None
           end
  end.

Fixpoint split_all (c : ascii) (s : string) : list string :=
  match s with
  | EmptyString => [EmptyString]
  | String a s' =>
      if Ascii.eqb a c then EmptyString :: split_all c s'
      else match split_all c s' with
           | x :: l => String a x :: l
           | [] => [String a EmptyString]
           end
  end.

Definition parse_pair (p : string) : string * string :=
  match split_first "=" p with
  | Some (n, v) => (n, v)
  | None => (p, EmptyString)
  end.

Definition parse_url (u : string) : string * list (string * string) :=
  match split_first "?" u with
  | Some (b, q) => (b, parse_pair <$> split_all "&" q)
  | None => (u, [])
  end.

(** ** MT.resourceExists (lines 352-363) *)

(** [path && path[0] === '/'] *)
Definition leading_slash (path : string) : bool :=
  match path with
  | String a _ => Ascii.eqb a "/"
  | EmptyString => false
  end.

Section ResourceExists.

(** [resourceMap.hasKey], of the host: [None] when it throws. *)
Variable hasKey : string → option bool.

Definition resourceExists (path : string) : bool :=
  let root := if leading_slash path then "Files" else "Files/" in
  match hasKey (root +:+ path) with
  | Some true => true
  | Some false => false
  | None => false
  end.

End ResourceExists.

(** ** MT.findParent (lines 426-436) *)

(** A DOM node: an element, with the names of its attributes and its
    [parentNode], or a node that is no element (the document, a document
    fragment), which has no [hasAttribute] and no parent. *)
#[warnings="-register-all"]
Inductive node :=
  | Element (attributes : list string) (parentNode : option node)
  | Document.

Definition hasAttribute (attributes : list string) (name : string) : bool :=
  bool_decide (name ∈ attributes).

(** The function from [startEl] on, when it is a node. *)
Fixpoint findParent_from (startEl : node) : completion (option node) :=
  match startEl with
  | Element attributes parentNode =>
      if hasAttribute attributes "data-motown-owner-index" then Normal (Some startEl)
      else match parentNode with
           | Some p => findParent_from p
           | None => Normal None
           end
  | Document => Throw TypeError
  end.

(** [None] is [null] or [undefined] as the argument and [null] as the
    result. *)
Definition findParent (startEl : option node) : completion (option node) :=
  match startEl with
  | Some n => findParent_from n
  | None => Normal None
  end.

(** Induction along the parents. *)
Fixpoint node_parent_ind (P : node → Prop)
    (Hdocument : P Document)
    (Hroot : ∀ attributes, P (Element attributes None))
    (Hchild : ∀ attributes p, P p → P (Element attributes (Some p)))
    (n : node) : P n :=
  match n with
  | Document => Hdocument
  | Element attributes None => Hroot attributes
  | Element attributes (Some p) =>
      Hchild attributes p (node_parent_ind P Hdocument Hroot Hchild p)
  end.

(** A node with its ancestors, innermost first. *)
Fixpoint ancestors (n : node) : list node :=
  n :: match n with
       | Element _ (Some p) => ancestors p
       | _ => []
       end.

(** The nodes that own a view: elements with the attribute. *)
Definition owner (n : node) : bool :=
  match n with
  | Element attributes _ => hasAttribute attributes "data-motown-owner-index"
  | Document => false
  end.

(** * MT.AppController (lines 48-214)

    The page definitions of the application and the resolution of a page's
    controller.  Both read objects used as maps at names that come from
    outside (a location, a configured controller name), so here the members
    every object inherits from [Object.prototype] are part of the model. *)

(** What a call can throw. *)
Inductive thrown :=
  | ThrownString (s : string)         (* [throw '...'] *)
  | ThrownError (message : string)    (* [throw new Error(...)] *)
  | ThrownTypeError.                  (* a property of [undefined], a call of [undefined] *)

Inductive outcome (A : Type) :=
  | Returns (a : A)
  | Throws (e : thrown).
Arguments Returns {A} a.
Arguments Throws {A} e.

(** An entry of [config.pages]. *)
Inductive page :=
  | PageName (name : string)    (* [typeof def === 'string'] *)
  | PageDef (def : object)      (* [def && typeof def === 'object'] *)
  | PageOther.                  (* anything else *)

Record config := Config {
  pages : option (list page);   (* [None]: not an array *)
  namespace : value
}.

(** The message of the constructor, which has [pages] between double
    quotes. *)
Definition pages_message : string :=
  "You must include an array of " +:+ String "034" ("pages" +:+
  String "034" " in your configuration").

(** [str.charAt(0)] and [str.slice(1)] *)
Definition charAt0 (s : string) : string :=
  match s with
  | String a _ => String a EmptyString
  | EmptyString => EmptyString
  end.

Definition slice1 (s : string) : string :=
  match s with
  | String _ s' => s'
  | EmptyString => EmptyString
  end.

(** [str.replace(c, d)] for one-character strings [c] and [d]: the first [c]
    is replaced. *)
Fixpoint replace (c d : ascii) (s : string) : string :=
  match s with
  | EmptyString => EmptyString
  | String a s' => if Ascii.eqb a c then String d s' else String a (replace c d s')
  end.

Section AppController.

(** The truthy values a controller can resolve to (constructor functions, as
    a rule, and the functions of [Object.prototype]), and the host's global
    state: what the scripts loaded so far have defined. *)
Variables (function : Type) (window : Type).

(** [Object.prototype[name]], where it has a member of that name
    ([constructor], [toString], ...). *)
Variable prototype : string → option function.

Variable PageController : function.

(** [String.prototype.toUpperCase] *)
Variable toUpperCase : string → string.

(** [resourceMap.hasKey], as for [resourceExists]. *)
Variable hasKey : string → option bool.

(** [head.appendChild(s)] for a script element with [src] set: the script is
    evaluated at once. *)
Variable appendScript : string → window → window.

(** [WinJS.Utilities.getMember(name, window)]; [None] is a falsy result. *)
Variable getMember : value → window → outcome (option function).

(** [ns[name]] for the application's namespace object: the one defined under
    a name, or [window] itself; [None] is a falsy member. *)
Variable member : option string → string → window → option function.

Record app := App {
  _pageDefs : gmap string object;
  _controllerCtorMap : gmap string function;
  app_namespace : option string
}.

(** The loop over [this.pages]. *)
Definition add_page (defs : gmap string object) (def : page) : gmap string object :=
  match def with
  | PageName name => <[name := ∅]> defs
  | PageDef o => <[ToString (get_prop o "name") := o]> defs
  | PageOther => defs
  end.

(** The constructor, as far as the page definitions and the namespace go. *)
Definition AppController (c : config) : outcome app :=
  match pages c with
  | None | Some [] => Throws (ThrownString pages_message)
  | Some ps =>
      Returns {|
        _pageDefs := foldl add_page ∅ ps;
        _controllerCtorMap := ∅;
        app_namespace :=
          match namespace c with
          | VStr s => if (0 <? Z.of_nat (String.length s)) then Some s else None
          | _ => None
          end
      |}
  end.

(** [this._pageDefs[name]]: the definition, where [None] is [undefined].  An
    inherited member is a function, which has none of the properties of a
    definition, like the empty definition. *)
Definition pageDef (a : app) (name : string) : option object :=
  match _pageDefs a !! name with
  | Some d => Some d
  | None =>
      match prototype name with
      | Some _ => Some ∅
      | None => None
      end
  end.

(** [this._controllerCtorMap[key]] *)
Definition cachedCtor (a : app) (key : string) : option function :=
  match _controllerCtorMap a !! key with
  | Some f => Some f
  | None => prototype key
  end.

(** [onBeforeNavigate(location, state, e)]: whether [e.preventDefault()] is
    called. *)
Definition onBeforeNavigate (location : string) (a : app) : bool :=
  match pageDef a location with
  | Some _ => false
  | None => true
  end.

(** ['/controllers/' + key.replace('.', '/') + '.js'] *)
Definition controller_path (key : string) : string :=
  "/controllers/" +:+ replace "." "/" key +:+ ".js".

Definition _resolveController (name : string) (a : app) (w : window)
  : outcome function * app * window :=
  let controllerClassName :=
    toUpperCase (charAt0 name) +:+ slice1 name +:+ "Controller" in
  match pageDef a name with
  | None => (Throws ThrownTypeError, a, w)
  | Some def =>
      let controllerCtorKey :=
        or_else (get_prop def "controller") (VStr controllerClassName) in
      match cachedCtor a (ToString controllerCtorKey) with
      | Some ctor => (Returns ctor, a, w)
      | None =>
          match controllerCtorKey with
          | VStr key =>
              let path := controller_path key in
              let w := if resourceExists hasKey path then appendScript path w else w in
              let resolved :=
                if truthy (get_prop def "controllerClass") then
                  match getMember (get_prop def "controllerClass") w with
                  | Returns (Some ctor) => Returns ctor
                  | Returns None =>
                      Throws (ThrownError ("Controller class could not be found: "
                                           +:+ ToString (get_prop def "controllerClass")))
                  | Throws e => Throws e
                  end
                else
                  Returns
                    (default
                       (default PageController
                          (member (app_namespace a) controllerClassName w))
                       (member (app_namespace a) (ToString (get_prop def "controller")) w))
              in
              match resolved with
              | Returns ctor =>
                  (Returns ctor,
                   {| _pageDefs := _pageDefs a;
                      _controllerCtorMap := <[key := ctor]> (_controllerCtorMap a);
                      app_namespace := app_namespace a |},
                   w)
              | Throws e => (Throws e, a, w)
              end
          | _ => (Throws ThrownTypeError, a, w)
          end
      end
  end.

End AppController.

Arguments App {function}.
Arguments _pageDefs {function}.
Arguments _controllerCtorMap {function}.
Arguments app_namespace {function}.
Arguments AppController {function}.
Arguments pageDef {function}.
Arguments cachedCtor {function}.
Arguments onBeforeNavigate {function}.
Arguments _resolveController {function window}.

(** The name an entry of [pages] is registered under, and its definition. *)
Definition page_name (def : page) : option string :=
  match def with
  | PageName name => Some name
  | PageDef o => Some (ToString (get_prop o "name"))
  | PageOther => None
  end.

Definition page_object (def : page) : object :=
  match def with
  | PageDef o => o
  | _ => ∅
  end.

(** * Properties *)

(** ** Arrays: splice and sort *)

Lemma splice_insert_app {A} (a b ins : list A) :
  splice (Z.of_nat (length a)) 0 ins (a ++ b) = a ++ ins ++ b.
Proof.
  unfold splice. rewrite length_app.
  destruct (Z.ltb_spec (Z.of_nat (length a)) 0) as [?|_]; [lia|].
  rewrite Z.min_l by lia.
  replace (Z.min (Z.max 0 0) _) with 0 by lia.
  rewrite Z.add_0_r, Nat2Z.id.
  by rewrite take_app_length, drop_app_length.
Qed.

Lemma splice_delete_app {A} (a b : list A) (x : A) :
  splice (Z.of_nat (length a)) 1 [] (a ++ x :: b) = a ++ b.
Proof.
  unfold splice. rewrite length_app. simpl length.
  destruct (Z.ltb_spec (Z.of_nat (length a)) 0) as [?|_]; [lia|].
  rewrite Z.min_l by lia.
  replace (Z.min (Z.max 1 0) _) with 1 by lia.
  replace (Z.to_nat (Z.of_nat (length a) + 1)) with (S (length a)) by lia.
  rewrite Nat2Z.id, take_app_length.
  replace (a ++ x :: b) with ((a ++ [x]) ++ b) by by rewrite <- app_assoc.
  replace (S (length a)) with (length (a ++ [x])) by (rewrite length_app; simpl; lia).
  by rewrite drop_app_length.
Qed.

Lemma splice_delete_beyond {A} (l : list A) (i : Z) :
  Z.of_nat (length l) <= i → splice i 1 [] l = l.
Proof.
  intros Hi. unfold splice.
  destruct (Z.ltb_spec i 0) as [?|_]; [lia|].
  rewrite Z.min_r by lia.
  rewrite Nat2Z.id, firstn_all, drop_ge by lia.
  by rewrite app_nil_r.
Qed.

Lemma at_index_split {A} (l : list A) (i : Z) (x : A) :
  at_index l i = Some x →
  ∃ a b, l = a ++ x :: b ∧ i = Z.of_nat (length a).
Proof.
  unfold at_index. destruct (Z.ltb_spec i 0) as [?|Hi]; [done|].
  intros H. apply list_elem_of_split_length in H as (a & b & -> & Hl).
  exists a, b. split; [done|lia].
Qed.

Lemma at_index_app_length {A} (a b : list A) (x : A) :
  at_index (a ++ x :: b) (Z.of_nat (length a)) = Some x.
Proof.
  unfold at_index. destruct (Z.ltb_spec (Z.of_nat (length a)) 0) as [?|_]; [lia|].
  rewrite Nat2Z.id. by rewrite list_lookup_middle.
Qed.

Lemma at_index_elem_of {A} (l : list A) (i : Z) (x : A) :
  at_index l i = Some x → x ∈ l.
Proof.
  intros (a & b & -> & _)%at_index_split. apply elem_of_app. right. by left.
Qed.

Lemma at_index_lookup {A} (l : list A) (i : nat) :
  at_index l (Z.of_nat i) = l !! i.
Proof.
  unfold at_index. destruct (Z.ltb_spec (Z.of_nat i) 0) as [?|_]; [lia|].
  by rewrite Nat2Z.id.
Qed.

Lemma findIndex_from_app (r : loc) (a b : list loc) (i : Z) :
  r ∉ a → _findIndex_from i r (a ++ r :: b) = i + Z.of_nat (length a).
Proof.
  revert i. induction a as [|x a IH]; intros i Hr; simpl.
  - rewrite decide_True by done. lia.
  - apply not_elem_of_cons in Hr as [Hne Hr].
    rewrite decide_False by done. rewrite IH by done. lia.
Qed.

Lemma findIndex_from_absent (r : loc) (l : list loc) (i : Z) :
  r ∉ l → _findIndex_from i r l = -1.
Proof.
  revert i. induction l as [|x l IH]; intros i Hr; simpl; [done|].
  apply not_elem_of_cons in Hr as [Hne Hr].
  rewrite decide_False by done. by apply IH.
Qed.

Lemma findIndex_from_found (r : loc) (l : list loc) (i : Z) :
  r ∈ l → at_index l (_findIndex_from i r l - i) = Some r.
Proof.
  revert i. induction l as [|x l IH]; intros i Hr; simpl; [by apply elem_of_nil in Hr|].
  destruct (decide (r = x)) as [->|Hne].
  - by rewrite Z.sub_diag.
  - apply elem_of_cons in Hr as [?|Hl]; [done|].
    specialize (IH (i + 1) Hl).
    apply at_index_split in IH as (a & b & Hab & Hi).
    replace (_findIndex_from (i + 1) r l - i) with (Z.of_nat (length (x :: a)))
      by (simpl length; lia).
    rewrite Hab. apply (at_index_app_length (x :: a) b r).
Qed.

Section ArraySort.
Context {A : Type} (cmp : A → A → Z).

Lemma sort_insert_Permutation (x : A) (l : list A) :
  sort_insert cmp x l ≡ₚ x :: l.
Proof.
  induction l as [|y l IH]; simpl; [done|].
  destruct (cmp x y <=? 0); [done|].
  rewrite IH. apply Permutation_swap.
Qed.

Lemma array_sort_Permutation (l : list A) : array_sort cmp l ≡ₚ l.
Proof.
  induction l as [|x l IH]; simpl; [done|].
  by rewrite sort_insert_Permutation, IH.
Qed.

Lemma array_sort_length (l : list A) : length (array_sort cmp l) = length l.
Proof. by rewrite array_sort_Permutation. Qed.

Lemma sort_insert_ext (cmp' : A → A → Z) (x : A) (l : list A) :
  (∀ a b, cmp a b = cmp' a b) → sort_insert cmp x l = sort_insert cmp' x l.
Proof.
  intros E. induction l as [|y l IH]; simpl; [done|]. by rewrite E, IH.
Qed.

Lemma array_sort_ext (cmp' : A → A → Z) (l : list A) :
  (∀ a b, cmp a b = cmp' a b) → array_sort cmp l = array_sort cmp' l.
Proof.
  intros E. induction l as [|x l IH]; simpl; [done|].
  rewrite IH. by apply sort_insert_ext.
Qed.

Lemma sort_insert_map {B} (f : B → A) (x : B) (l : list B) :
  f <$> sort_insert (λ a b, cmp (f a) (f b)) x l = sort_insert cmp (f x) (f <$> l).
Proof.
  induction l as [|y l IH]; [done|].
  rewrite fmap_cons. cbn [sort_insert].
  destruct (cmp (f x) (f y) <=? 0); [done|].
  by rewrite fmap_cons, IH.
Qed.

Lemma array_sort_map {B} (f : B → A) (l : list B) :
  f <$> array_sort (λ a b, cmp (f a) (f b)) l = array_sort cmp (f <$> l).
Proof.
  induction l as [|x l IH]; [done|].
  rewrite fmap_cons. cbn [array_sort].
  by rewrite sort_insert_map, IH.
Qed.

(** A sequence in which no element compares greater than its successor is
    left as it is. *)
Lemma array_sort_sorted (l : list A) :
  Sorted (λ a b, cmp a b <= 0) l → array_sort cmp l = l.
Proof.
  induction 1 as [|x l Hl IH Hx]; simpl; [done|].
  rewrite IH. destruct Hx as [|y l Hxy]; simpl; [done|].
  destruct (Z.leb_spec (cmp x y) 0); [done|lia].
Qed.

Hypothesis cmp_ok : consistent cmp.

Lemma cmp_gt_le (a b : A) : 0 < cmp a b → cmp b a <= 0.
Proof. intros H. pose proof (cmp_swap cmp cmp_ok a b). lia. Qed.

Lemma cmp_equiv (x y a : A) : cmp x a = 0 → cmp y a = 0 → cmp x y <= 0.
Proof.
  intros Hx Hy. apply (cmp_trans cmp cmp_ok x a y); [lia|].
  pose proof (cmp_swap cmp cmp_ok y a). lia.
Qed.

Lemma sort_insert_Sorted (x : A) (l : list A) :
  Sorted (λ a b, cmp a b <= 0) l → Sorted (λ a b, cmp a b <= 0) (sort_insert cmp x l).
Proof.
  induction 1 as [|y l Hl IH Hy]; simpl.
  - by repeat constructor.
  - destruct (Z.leb_spec (cmp x y) 0) as [Hxy|Hxy].
    + constructor; [by constructor|by constructor].
    + constructor; [done|].
      destruct Hy as [|z l Hyz]; simpl.
      * constructor. by apply cmp_gt_le.
      * destruct (cmp x z <=? 0); constructor; [by apply cmp_gt_le|done].
Qed.

Lemma array_sort_Sorted (l : list A) :
  Sorted (λ a b, cmp a b <= 0) (array_sort cmp l).
Proof.
  induction l as [|x l IH]; simpl; [constructor|]. by apply sort_insert_Sorted.
Qed.

(** In the result no element compares greater than any later one. *)
Lemma array_sort_StronglySorted (l : list A) :
  StronglySorted (λ a b, cmp a b <= 0) (array_sort cmp l).
Proof.
  apply Sorted_StronglySorted.
  - intros a b c. apply (cmp_trans cmp cmp_ok).
  - apply array_sort_Sorted.
Qed.

Lemma array_sort_idempotent (l : list A) :
  array_sort cmp (array_sort cmp l) = array_sort cmp l.
Proof. apply array_sort_sorted, array_sort_Sorted. Qed.

(** Stability: elements that compare equal keep their relative order. *)
Lemma sort_insert_stable (a x : A) (l : list A) :
  filter (λ y, cmp y a = 0) (sort_insert cmp x l) = filter (λ y, cmp y a = 0) (x :: l).
Proof.
  induction l as [|y l IH]; simpl; [done|].
  destruct (Z.leb_spec (cmp x y) 0) as [Hxy|Hxy]; [done|].
  rewrite filter_cons, IH, !filter_cons.
  destruct (decide (cmp y a = 0)) as [Hy|Hy], (decide (cmp x a = 0)) as [Hx|Hx];
    try done.
  pose proof (cmp_equiv x y a Hx Hy). lia.
Qed.

Lemma array_sort_stable (a : A) (l : list A) :
  filter (λ y, cmp y a = 0) (array_sort cmp l) = filter (λ y, cmp y a = 0) l.
Proof.
  induction l as [|x l IH]; simpl; [done|].
  by rewrite sort_insert_stable, !filter_cons, IH.
Qed.

End ArraySort.

Lemma splice_insert_at {A} (a b ins l : list A) (i : Z) :
  l = a ++ b → i = Z.of_nat (length a) → splice i 0 ins l = a ++ ins ++ b.
Proof. intros -> ->. apply splice_insert_app. Qed.

Lemma splice_delete_at {A} (a b l : list A) (x : A) (i : Z) :
  l = a ++ x :: b → i = Z.of_nat (length a) → splice i 1 [] l = a ++ b.
Proof. intros -> ->. apply splice_delete_app. Qed.

(** [moveAfter] on the array: the record at [ci] goes behind the one at
    [pi], whichever of the two comes first. *)
Lemma moveAfter_backward {A} (a b c : list A) (r r' : A) (ci pi : Z) :
  pi = Z.of_nat (length a) → ci = Z.of_nat (length a + 1 + length b) →
  splice (ci + (if ci <? pi + 1 then 0 else 1)) 1 []
    (splice (pi + 1) 0 [r] (a ++ r' :: b ++ r :: c))
  = a ++ r' :: r :: b ++ c.
Proof.
  intros -> ->.
  destruct (Z.ltb_spec (Z.of_nat (length a + 1 + length b)) (Z.of_nat (length a) + 1));
    [lia|].
  rewrite (splice_insert_at (a ++ [r']) (b ++ r :: c)).
  - rewrite (splice_delete_at (a ++ r' :: r :: b) c _ r).
    + reassoc.
    + reassoc.
    + rewrite length_app. simpl. lia.
  - reassoc.
  - rewrite length_app. simpl. lia.
Qed.

Lemma moveAfter_forward {A} (a b c : list A) (r r' : A) (ci pi : Z) :
  ci = Z.of_nat (length a) → pi = Z.of_nat (length a + 1 + length b) →
  splice (ci + (if ci <? pi + 1 then 0 else 1)) 1 []
    (splice (pi + 1) 0 [r] (a ++ r :: b ++ r' :: c))
  = a ++ b ++ r' :: r :: c.
Proof.
  intros -> ->.
  destruct (Z.ltb_spec (Z.of_nat (length a)) (Z.of_nat (length a + 1 + length b) + 1));
    [|lia].
  rewrite (splice_insert_at (a ++ r :: b ++ [r']) c).
  - rewrite (splice_delete_at a (b ++ [r'] ++ [r] ++ c) _ r).
    + done.
    + reassoc.
    + lia.
  - rewrite <- !app_assoc. simpl. reassoc.
  - rewrite !length_app. simpl. rewrite length_app. simpl. lia.
Qed.

Lemma moveAfter_self {A} (a c : list A) (r : A) (ci : Z) :
  ci = Z.of_nat (length a) →
  splice (ci + (if ci <? ci + 1 then 0 else 1)) 1 []
    (splice (ci + 1) 0 [r] (a ++ r :: c))
  = a ++ r :: c.
Proof.
  intros ->.
  destruct (Z.ltb_spec (Z.of_nat (length a)) (Z.of_nat (length a) + 1)); [|lia].
  rewrite (splice_insert_at (a ++ [r]) c).
  - rewrite (splice_delete_at a ([r] ++ c) _ r); [done| |lia].
    reassoc.
  - reassoc.
  - rewrite length_app. simpl. lia.
Qed.

Lemma at_index_Some {A} (l : list A) (i : Z) (x : A) :
  at_index l i = Some x ↔ 0 <= i ∧ l !! Z.to_nat i = Some x.
Proof.
  unfold at_index. destruct (Z.ltb_spec i 0); split; try done; intros [? ?]; [lia|done].
Qed.

(** The three cases together. *)
Lemma moveAfter_cases {A} (l : list A) (r r' : A) (ci pi : Z) :
  at_index l ci = Some r → at_index l pi = Some r' →
  let l' := splice (ci + (if ci <? pi + 1 then 0 else 1)) 1 []
              (splice (pi + 1) 0 [r] l) in
  (ci = pi ∧ l' = l) ∨
  (∃ a b c, l = a ++ r' :: b ++ r :: c ∧ l' = a ++ r' :: r :: b ++ c) ∨
  (∃ a b c, l = a ++ r :: b ++ r' :: c ∧ l' = a ++ b ++ r' :: r :: c).
Proof.
  intros Hc Hp l'. subst l'.
  apply at_index_split in Hc as (a & c & Hl & Hci).
  apply at_index_Some in Hp as [Hp0 Hp].
  destruct (Z.lt_trichotomy pi ci) as [Hlt|[Heq|Hgt]].
  - right; left.
    assert (Ha : a !! Z.to_nat pi = Some r').
    { rewrite Hl, lookup_app_l in Hp by lia. done. }
    apply list_elem_of_split_length in Ha as (a1 & a2 & -> & Hpi).
    exists a1, a2, c. subst l. rewrite <- !app_assoc. simpl.
    split; [done|].
    apply moveAfter_backward; [lia|]. rewrite length_app in Hci. simpl in Hci. lia.
  - left. split; [done|]. subst l pi. by apply moveAfter_self.
  - right; right.
    assert (Hc' : c !! (Z.to_nat pi - length a - 1)%nat = Some r').
    { rewrite Hl, lookup_app_r in Hp by lia.
      replace (Z.to_nat pi - length a)%nat with (S (Z.to_nat pi - length a - 1)) in Hp by lia.
      done. }
    apply list_elem_of_split_length in Hc' as (c1 & c2 & -> & Hpi).
    exists a, c1, c2. subst l. split; [done|].
    apply moveAfter_forward; lia.
Qed.

Lemma moveAfter_Permutation {A} (l : list A) (r r' : A) (ci pi : Z) :
  at_index l ci = Some r → at_index l pi = Some r' →
  splice (ci + (if ci <? pi + 1 then 0 else 1)) 1 [] (splice (pi + 1) 0 [r] l) ≡ₚ l.
Proof.
  intros Hc Hp.
  destruct (moveAfter_cases l r r' ci pi Hc Hp)
    as [[_ ->]|[(a & b & c & -> & ->)|(a & b & c & -> & ->)]]; [done| |].
  - apply Permutation_app_head. constructor.
    change (r :: b ++ c) with ([r] ++ b ++ c).
    by rewrite (Permutation_middle b c r).
  - apply Permutation_app_head.
    rewrite (Permutation_middle b (r' :: c) r). apply Permutation_app_head.
    apply Permutation_swap.
Qed.

Lemma moveToStart_Permutation {A} (l : list A) (r : A) (c : Z) :
  at_index l c = Some r → splice 0 0 [r] (splice c 1 [] l) ≡ₚ l.
Proof.
  intros (a & b & -> & ->)%at_index_split.
  rewrite splice_delete_app.
  rewrite (splice_insert_at [] (a ++ b)) by done. simpl.
  apply Permutation_middle.
Qed.

Lemma moveToEnd_Permutation {A} (l : list A) (r : A) (c : Z) :
  at_index l c = Some r → splice c 1 [] l ++ [r] ≡ₚ l.
Proof.
  intros (a & b & -> & ->)%at_index_split.
  rewrite splice_delete_app, <- app_assoc.
  apply Permutation_app_head. symmetry. apply Permutation_cons_append.
Qed.

(** ** What each method does to the state *)

Lemma alter_as_insert (f : item → item) (r : loc) (h : list item) (it : item) :
  h !! r = Some it → alter f r h = <[r := f it]> h.
Proof.
  intros Hh. rewrite list_insert_alter. apply list_alter_ext; [|done].
  intros x Hx. congruence.
Qed.

Lemma lookup_insert_heap (r : loc) (h : list item) (it x : item) :
  h !! r = Some it → <[r := x]> h !! r = Some x.
Proof. intros Hh. apply list_lookup_insert_eq. by apply lookup_lt_Some in Hh. Qed.

Ltac heap_simpl Hh :=
  repeat first
    [ rewrite Hh
    | rewrite (alter_as_insert _ _ _ _ Hh)
    | rewrite (alter_as_insert _ _ _ _ (lookup_insert_heap _ _ _ _ Hh))
    | rewrite (lookup_insert_heap _ _ _ _ Hh)
    | rewrite list_insert_insert_eq
    | progress simpl ].

Lemma moveToStart_eq {inherited : string → bool}
    (s : state) (k : value) (r : loc) (it : item) :
  _keyMap s !! ToString k = Some r → heap s !! r = Some it →
  moveToStart inherited k s =
    (Normal (wrap VNull),
     let c := cached s r it in
     let s' := set_heap (<[r := settle c it]> (heap s)) s in
     if _moved it then s'
     else if 0 <? c then set_items (splice 0 0 [r] (splice c 1 [] (_items s))) s'
          else s').
Proof.
  intros Hk Hh. unfold moveToStart, cached, settle. unfold_m. rewrite Hk. simpl.
  destruct it as [ky d [i|] [|]]; heap_simpl Hh; try done.
  - rewrite (list_insert_id _ _ _ Hh).
    destruct (0 <? i); [done|]. by destruct s.
  - by destruct (0 <? _findIndex_from 0 r (_items s)).
Qed.

Lemma moveToEnd_eq {inherited : string → bool} (s : state) (k : value) (r : loc) (it : item) :
  _keyMap s !! ToString k = Some r → heap s !! r = Some it →
  moveToEnd inherited k s =
    (Normal (wrap VNull),
     let c := cached s r it in
     let s' := set_heap (<[r := settle c it]> (heap s)) s in
     if _moved it then s'
     else if c <? Z.of_nat (length (_items s)) - 1
          then set_items (splice c 1 [] (_items s) ++ [r]) s'
          else s').
Proof.
  intros Hk Hh. unfold moveToEnd, cached, settle. unfold_m. rewrite Hk. simpl.
  destruct it as [ky d [i|] [|]]; heap_simpl Hh; try done.
  - rewrite (list_insert_id _ _ _ Hh).
    destruct (i <? _); [done|]. by destruct s.
  - by destruct (_ <? _).
Qed.

Lemma moveAfter_eq {inherited : string → bool}
    (s : state) (k p : value) (ci pi : Z) (r : loc) (it : item) :
  _keyMap s !! ToString k = Some r → heap s !! r = Some it →
  moveAfter inherited k p ci pi s =
    (Normal (wrap VNull),
     if _moved it then set_heap (<[r := with_moved false it]> (heap s)) s
     else set_items
            (splice (ci + (if ci <? pi + 1 then 0 else 1)) 1 []
               (splice (pi + 1) 0 [r] (_items s))) s).
Proof.
  intros Hk Hh. unfold moveAfter. unfold_m. rewrite Hk. simpl.
  destruct it as [ky d i [|]]; heap_simpl Hh; done.
Qed.

Lemma move_absent {inherited : string → bool} (s : state) (k p : value) (ci pi : Z) :
  _keyMap s !! ToString k = None →
  let e := if inherited (ToString k) then Unmodelled else TypeError in
  moveToStart inherited k s = (Throw e, s) ∧
  moveToEnd inherited k s = (Throw e, s) ∧
  moveAfter inherited k p ci pi s = (Throw e, s).
Proof.
  intros Hk. unfold moveToStart, moveToEnd, moveAfter. unfold_m. by rewrite Hk.
Qed.

Lemma remove_eq (s : state) (k : value) (r : loc) (it : item) :
  _keyMap s !! ToString k = Some r → heap s !! r = Some it →
  remove k s =
    (Normal (wrap VNull),
     let c := cached s r it in
     if 0 <=? c
     then set_keyMap (delete (ToString k) (_keyMap s))
            (set_items (splice c 1 [] (_items s)) s)
     else s).
Proof.
  intros Hk Hh. unfold remove, cached. unfold_m. rewrite Hk. simpl. rewrite Hh.
  destruct it as [ky d [i|] mv]; simpl.
  - by destruct (0 <=? i).
  - by destruct (0 <=? _).
Qed.

Lemma remove_absent (s : state) (k : value) :
  _keyMap s !! ToString k = None → remove k s = (Normal (wrap VNull), s).
Proof. intros Hk. unfold remove. unfold_m. by rewrite Hk. Qed.

Lemma insertAtEnd_eq (s : state) (k : value) (d : object) :
  insertAtEnd k d s =
    let k' := or_else k (get_prop d (_keyProperty s)) in
    let r := length (heap s) in
    (Normal (wrap r),
     set_keyMap (<[ToString k' := r]> (_keyMap s))
       (set_items (_items s ++ [r])
          (set_heap (heap s ++ [{| key := k'; data := d; index := None; _moved := false |}]) s))).
Proof. done. Qed.

(** ** The bijection is kept *)

Lemma bijection_transport (s s' : state) :
  bijection s → _items s' ≡ₚ _items s → _keyMap s' = _keyMap s →
  (∀ r, key <$> heap s' !! r = key <$> heap s !! r) →
  bijection s'.
Proof.
  intros [Hnd Hit Hkm] Hp Hk Hh. split.
  - by rewrite Hp.
  - intros r Hr. rewrite Hp in Hr. destruct (Hit r Hr) as (it & Hit1 & Hit2).
    specialize (Hh r). rewrite Hit1 in Hh.
    destruct (heap s' !! r) as [it'|] eqn:E; [|done].
    exists it'. split; [done|]. simpl in Hh. rewrite Hk. congruence.
  - intros k r Hr. rewrite Hk in Hr. destruct (Hkm k r Hr) as (Hin & it & Hit1 & Hit2).
    split; [by rewrite Hp|].
    specialize (Hh r). rewrite Hit1 in Hh.
    destruct (heap s' !! r) as [it'|] eqn:E; [|done].
    exists it'. split; [done|]. simpl in Hh. congruence.
Qed.

Lemma insert_keeps_key (h : list item) (r : loc) (it x : item) :
  h !! r = Some it → key x = key it →
  ∀ r', key <$> <[r := x]> h !! r' = key <$> h !! r'.
Proof.
  intros Hh Hk r'. destruct (decide (r = r')) as [<-|Hne].
  - rewrite (lookup_insert_heap _ _ _ _ Hh), Hh. simpl. by rewrite Hk.
  - by rewrite list_lookup_insert_ne.
Qed.

Lemma cached_position (s : state) (k : value) (r : loc) (it : item) :
  cache_accurate s k → _keyMap s !! ToString k = Some r → heap s !! r = Some it →
  r ∈ _items s → at_index (_items s) (cached s r it) = Some r.
Proof.
  intros Hc Hk Hh Hr. unfold cached. destruct (index it) as [i|] eqn:E.
  - by apply (Hc r it i).
  - pose proof (findIndex_from_found r (_items s) 0 Hr) as H.
    by rewrite Z.sub_0_r in H.
Qed.

Lemma bijection_moveToStart {inherited : string → bool} (s : state) (k : value) :
  bijection s → cache_accurate s k → bijection (exec (moveToStart inherited k) s).
Proof.
  intros Hb Hc. unfold exec.
  destruct (_keyMap s !! ToString k) as [r|] eqn:Hk.
  - destruct (bij_keyMap s Hb _ _ Hk) as (Hr & it & Hh & _).
    rewrite (moveToStart_eq (inherited:=inherited) s k r it Hk Hh). simpl.
    pose proof (cached_position s k r it Hc Hk Hh Hr) as Hpos.
    assert (Hkeys : ∀ r', key <$> <[r := settle (cached s r it) it]> (heap s) !! r'
                          = key <$> heap s !! r')
      by (by apply (insert_keeps_key _ _ it)).
    destruct (_moved it); [|destruct (0 <? cached s r it)];
      apply (bijection_transport s); simpl; try done.
    by apply moveToStart_Permutation.
  - by destruct (move_absent (inherited:=inherited) s k VNull 0 0 Hk) as (-> & _).
Qed.

Lemma bijection_moveToEnd {inherited : string → bool} (s : state) (k : value) :
  bijection s → cache_accurate s k → bijection (exec (moveToEnd inherited k) s).
Proof.
  intros Hb Hc. unfold exec.
  destruct (_keyMap s !! ToString k) as [r|] eqn:Hk.
  - destruct (bij_keyMap s Hb _ _ Hk) as (Hr & it & Hh & _).
    rewrite (moveToEnd_eq (inherited:=inherited) s k r it Hk Hh). simpl.
    pose proof (cached_position s k r it Hc Hk Hh Hr) as Hpos.
    assert (Hkeys : ∀ r', key <$> <[r := settle (cached s r it) it]> (heap s) !! r'
                          = key <$> heap s !! r')
      by (by apply (insert_keeps_key _ _ it)).
    destruct (_moved it); [|destruct (cached s r it <? _)];
      apply (bijection_transport s); simpl; try done.
    by apply moveToEnd_Permutation.
  - by destruct (move_absent (inherited:=inherited) s k VNull 0 0 Hk) as (_ & -> & _).
Qed.

Lemma bijection_moveAfter {inherited : string → bool} (s : state) (k p : value) (ci pi : Z) :
  bijection s → legal inherited s (OMoveAfter k p ci pi) →
  bijection (exec (moveAfter inherited k p ci pi) s).
Proof.
  intros Hb (r & r' & Hk & Hp & Hci & Hpi). unfold exec.
  destruct (bij_keyMap s Hb _ _ Hk) as (Hr & it & Hh & _).
  rewrite (moveAfter_eq (inherited:=inherited) s k p ci pi r it Hk Hh). simpl.
  destruct (_moved it); apply (bijection_transport s); simpl; try done.
  - by apply (insert_keeps_key _ _ it).
  - by apply (moveAfter_Permutation _ r r').
Qed.

Lemma elem_of_middle {A} (a b : list A) (x y : A) :
  x ∈ a ++ b → x ∈ a ++ y :: b.
Proof.
  rewrite !elem_of_app, elem_of_cons. tauto.
Qed.

Lemma elem_of_middle_ne {A} (a b : list A) (x y : A) :
  x ∈ a ++ y :: b → x ≠ y → x ∈ a ++ b.
Proof.
  rewrite !elem_of_app, elem_of_cons. tauto.
Qed.

Lemma bijection_remove (s : state) (k : value) :
  bijection s → cache_accurate s k → bijection (exec (remove k) s).
Proof.
  intros Hb Hc. unfold exec.
  destruct (_keyMap s !! ToString k) as [r|] eqn:Hk.
  - destruct (bij_keyMap s Hb _ _ Hk) as (Hr & it & Hh & Hkey).
    rewrite (remove_eq s k r it Hk Hh). simpl.
    pose proof (cached_position s k r it Hc Hk Hh Hr) as Hpos.
    apply at_index_split in Hpos as (a & b & Hl & Hi).
    destruct (Z.leb_spec 0 (cached s r it)); [|lia].
    rewrite Hl, Hi, splice_delete_app.
    destruct Hb as [Hnd Hit Hkm]. rewrite Hl in Hnd.
    assert (Hra : r ∉ a ++ b).
    { apply NoDup_app in Hnd as (_ & Hab & Hb%NoDup_cons).
      intros [Hra|Hrb]%elem_of_app; [|tauto]. apply (Hab r Hra). by left. }
    split; simpl.
    + apply NoDup_app in Hnd as (Ha & Hab & Hb%NoDup_cons).
      apply NoDup_app. split_and!; [done| |tauto].
      intros x Hx Hxb. apply (Hab x Hx). by right.
    + intros r'' Hr''.
      destruct (Hit r'') as (it'' & Hh'' & Hk''); [rewrite Hl; by apply elem_of_middle|].
      exists it''. split; [done|].
      rewrite lookup_delete_ne; [done|].
      intros E. rewrite <- E, Hk in Hk''. injection Hk'' as <-. done.
    + intros k' r'' Hk'.
      apply lookup_delete_Some in Hk' as [Hne Hk'].
      destruct (Hkm _ _ Hk') as (Hin & it'' & Hh'' & Hkey'').
      split; [|by exists it''].
      rewrite Hl in Hin.
      assert (r'' ≠ r) by (intros ->; congruence).
      by apply (elem_of_middle_ne a b r'' r).
  - by rewrite (remove_absent s k Hk).
Qed.

Lemma bijection_push_item (s : state) (k : value) (d : object) :
  bijection s → _keyMap s !! ToString k = None → bijection (push_item k d s).
Proof.
  intros [Hnd Hit Hkm] Hk.
  assert (Hfresh : length (heap s) ∉ _items s).
  { intros Hin. destruct (Hit _ Hin) as (it & Hh%lookup_lt_Some & _). lia. }
  split; simpl.
  - apply NoDup_app. split_and!; [done| |apply NoDup_singleton].
    intros x Hx ->%list_elem_of_singleton. done.
  - intros r [Hr| ->%list_elem_of_singleton]%elem_of_app.
    + destruct (Hit r Hr) as (it & Hh & Hk').
      exists it. split; [by apply lookup_app_l_Some|].
      rewrite lookup_insert_ne; [done|]. congruence.
    + eexists. split; [apply list_lookup_middle; done|]. simpl.
      by rewrite lookup_insert_eq.
  - intros k' r [[<- <-]|[Hne Hk']]%lookup_insert_Some.
    + split; [apply elem_of_app; right; by left|].
      eexists. split; [apply list_lookup_middle; done|done].
    + destruct (Hkm _ _ Hk') as (Hin & it & Hh & Hkey).
      split; [apply elem_of_app; by left|].
      exists it. split; [by apply lookup_app_l_Some|done].
Qed.

Lemma bijection_insertAtEnd {inherited : string → bool} (s : state) (k : value) (d : object) :
  bijection s → legal inherited s (OInsertAtEnd k d) → bijection (exec (insertAtEnd k d) s).
Proof.
  intros Hb [_ Hk]. unfold exec. rewrite insertAtEnd_eq. simpl.
  by apply bijection_push_item.
Qed.

Lemma exec_run {inherited : string → bool} (o : op) (s : state) :
  exec (run inherited o) s =
    match o with
    | OInsertAtEnd k d => exec (insertAtEnd k d) s
    | ORemove k => exec (remove k) s
    | OMoveToStart k => exec (moveToStart inherited k) s
    | OMoveToEnd k => exec (moveToEnd inherited k) s
    | OMoveAfter k p ci pi => exec (moveAfter inherited k p ci pi) s
    end.
Proof.
  unfold exec, run, bind, ret.
  destruct o; simpl; by repeat case_match.
Qed.

Lemma bijection_run {inherited : string → bool} (o : op) (s : state) :
  bijection s → legal inherited s o → cache_safe s o →
  bijection (exec (run inherited o) s).
Proof.
  intros Hb Hl Hc. rewrite exec_run. destruct o; simpl in *.
  - by apply (bijection_insertAtEnd (inherited:=inherited)).
  - by apply bijection_remove.
  - by apply bijection_moveToStart.
  - by apply bijection_moveToEnd.
  - by apply bijection_moveAfter.
Qed.

Lemma bijection_states {inherited : string → bool} (ops : list op) (s : state) :
  bijection s →
  all_along inherited (legal inherited) ops s → all_along inherited cache_safe ops s →
  Forall bijection (states inherited ops s).
Proof.
  revert s. induction ops as [|o ops IH]; intros s Hb Hl Hc; simpl; [constructor|].
  destruct Hl as [Hl Hls], Hc as [Hc Hcs].
  pose proof (bijection_run (inherited:=inherited) o s Hb Hl Hc).
  constructor; [done|]. by apply IH.
Qed.

(** ** Construction and [setData] *)

Section Init.
Context (B : object → object).

Lemma initItems_loop_eq (l : list object) (s : state) :
  _initItems_loop B l s = (Normal tt, push_all B l s).
Proof.
  unfold push_all.
  assert (G : ∀ s0 : state, _keyProperty s0 = _keyProperty s → _binding s0 = _binding s →
    _initItems_loop B l s0 =
      (Normal tt, foldl (λ s' o, push_item (item_key s o) (item_data B s o) s') s0 l)).
  { induction l as [|o l IH]; intros s0 Hkp Hb; [done|].
    simpl. unfold bind, gets, alloc, modify. simpl.
    rewrite IH by done. unfold item_key, item_data. by rewrite Hkp, Hb. }
  by apply G.
Qed.

Lemma push_fold_fields (kf : object → value) (df : object → object)
    (l : list object) (s : state) :
  let s' := foldl (λ s' o, push_item (kf o) (df o) s') s l in
  _keyProperty s' = _keyProperty s ∧ _binding s' = _binding s ∧
  _notificationHandler s' = _notificationHandler s ∧ sink s' = sink s.
Proof.
  revert s. induction l as [|o l IH]; intros s; simpl; [done|].
  destruct (IH (push_item (kf o) (df o) s)) as (-> & -> & -> & ->). done.
Qed.

Lemma push_all_fields (l : list object) (s : state) :
  _keyProperty (push_all B l s) = _keyProperty s ∧
  _binding (push_all B l s) = _binding s ∧
  _notificationHandler (push_all B l s) = _notificationHandler s ∧
  sink (push_all B l s) = sink s.
Proof. apply push_fold_fields. Qed.

Lemma initItems_eq (d : input) (preventReload : bool) (s : state) :
  _initItems B d preventReload s =
    let l := input_list d in
    let s' := push_all B l (set_keyMap ∅ (set_items [] s)) in
    if preventReload then (Normal tt, s')
    else match _notificationHandler s with
         | Some _ => (Normal tt, notify reload s')
         | None => (Throw TypeError, s')
         end.
Proof.
  unfold _initItems. unfold bind at 1 2 3. unfold modify at 1 2.
  rewrite initItems_loop_eq. destruct preventReload; [done|].
  unfold bind, gets, the.
  destruct (push_all_fields (input_list d)
              (set_keyMap ∅ (set_items [] s))) as (_ & _ & -> & _).
  simpl. by destruct (_notificationHandler s).
Qed.

Lemma bijection_push_fold (kf : object → value) (df : object → object)
    (l : list object) (s : state) :
  bijection s →
  NoDup ((λ o, ToString (kf o)) <$> l) →
  (∀ o, o ∈ l → _keyMap s !! ToString (kf o) = None) →
  bijection (foldl (λ s' o, push_item (kf o) (df o) s') s l).
Proof.
  revert s. induction l as [|o l IH]; intros s Hb Hnd Hfresh; simpl; [done|].
  rewrite fmap_cons in Hnd. apply NoDup_cons in Hnd as [Ho Hnd].
  apply IH; [|done|].
  - apply bijection_push_item; [done|]. apply Hfresh. by left.
  - intros o' Ho'. simpl. rewrite lookup_insert_ne.
    + apply Hfresh. by right.
    + intros E. apply Ho. rewrite E. apply list_elem_of_fmap. by exists o'.
Qed.

Lemma bijection_push_all (l : list object) (s : state) :
  bijection s →
  NoDup ((λ o, ToString (item_key s o)) <$> l) →
  (∀ o, o ∈ l → _keyMap s !! ToString (item_key s o) = None) →
  bijection (push_all B l s).
Proof. apply bijection_push_fold. Qed.

Lemma bijection_empty (s : state) : bijection (set_keyMap ∅ (set_items [] s)).
Proof.
  split; simpl.
  - constructor.
  - intros r Hr. by apply elem_of_nil in Hr.
  - intros k r Hk. by rewrite lookup_empty in Hk.
Qed.

Lemma keyedDataAdapter_eq (d : input) (opts : option options) :
  keyedDataAdapter B d opts blank =
    (Normal tt,
     exec (_initItems B d true)
       (set_keyProperty
          (match keyProperty (default {| binding := false; keyProperty := None |} opts) with
           | Some p => if String.eqb p "" then "key" else p
           | None => "key"
           end)
          (set_binding (binding (default {| binding := false; keyProperty := None |} opts))
             blank))).
Proof.
  unfold keyedDataAdapter, exec. unfold bind at 1 2. unfold modify at 1 2.
  by rewrite !initItems_eq.
Qed.

(** A source built from records with pairwise distinct keys starts out as a
    bijection. *)
Lemma bijection_keyedDataAdapter (l : list object) (opts : option options) :
  let s0 := exec (keyedDataAdapter B (IArray l) opts) blank in
  NoDup ((λ o, ToString (item_key s0 o)) <$> l) → bijection s0.
Proof.
  unfold exec. rewrite keyedDataAdapter_eq. unfold exec. rewrite initItems_eq. simpl.
  destruct (push_all_fields l
    (set_keyMap ∅ (set_items [] (set_keyProperty
      (match keyProperty (default {| binding := false; keyProperty := None |} opts) with
       | Some p => if String.eqb p "" then "key" else p
       | None => "key"
       end)
      (set_binding (binding (default {| binding := false; keyProperty := None |} opts))
         blank))))) as (Hkp & _).
  unfold item_key at 1. rewrite Hkp. intros Hnd.
  apply bijection_push_all; [apply bijection_empty|done|].
  intros o _. apply lookup_empty.
Qed.

End Init.

(** X25.  For a source built from records whose keys are pairwise distinct
    as property names, the mapping and the sequence are in bijection after
    construction and after every operation of a sequence of insertAtEnd,
    remove, moveToStart, moveToEnd and moveAfter in which inserted keys are
    new, moveAfter is given the positions the two records are at, no move is
    given the name of an inherited member in place of a key, and each remove,
    moveToStart and moveToEnd names a record whose cached index is unset or
    equal to its position.  (No key is __proto__, which some engines do not
    store as a property.) *)
Theorem bijection_after_every_operation (inherited : string → bool)
    (B : object → object) (l : list object) (opts : option options) (ops : list op) :
  let s0 := exec (keyedDataAdapter B (IArray l) opts) blank in
  NoDup ((λ o, ToString (item_key s0 o)) <$> l) →
  Forall (λ o, ToString (item_key s0 o) ≠ "__proto__") l →
  all_along inherited (legal inherited) ops s0 →
  all_along inherited cache_safe ops s0 →
  Forall bijection (s0 :: states inherited ops s0).
Proof.
  intros s0 Hnd _ Hl Hc.
  assert (Hb : bijection s0) by by apply bijection_keyedDataAdapter.
  constructor; [done|]. by apply bijection_states.
Qed.

Lemma abc_keys_NoDup :
  NoDup ((λ o, ToString (item_key (exec (keyedDataAdapter no_binding (IArray abc) None) blank) o))
           <$> abc).
Proof. apply (bool_decide_unpack _). by vm_compute. Qed.

Lemma bijection_after_every_operation_witness :
  Forall bijection
    (let s0 := exec (keyedDataAdapter no_binding (IArray abc) None) blank in
     s0 :: states Object_prototype
             [OMoveToEnd (VStr "a"); ORemove (VStr "b");
              OInsertAtEnd (VStr "d") (record_of "d" 0);
              OMoveAfter (VStr "c") (VStr "d") 0 2;
              OMoveToStart (VStr "d")] s0).
Proof.
  apply (bijection_after_every_operation Object_prototype no_binding abc None).
  - exact abc_keys_NoDup.
  - by repeat constructor.
  - simpl. split_and!; try done.
    exists 2%nat, 3%nat. by vm_compute.
  - simpl. split_and!; try done; intros r it i Hk Hh Hi;
      vm_compute in Hk; simplify_eq; vm_compute in Hh; simplify_eq; done.
Defined.

(** C1.  On the store built from a and b, moveToStart("b") caches on the
    record the index it had before the move, and remove("b") then trusts that
    index: it splices the other record out of the sequence while it deletes
    "b" from the mapping.  Where the record has no index, remove looks the
    position up with _findIndex.  In the same way a second moveToStart("b")
    on the store built from a, b and c splices a out and leaves b twice in
    the sequence. *)
Lemma bijection_lost_after_move_and_remove :
  let s0 := exec (keyedDataAdapter no_binding
                    (IArray [record_of "a" 1; record_of "b" 2]) None) blank in
  let ops := [OMoveToStart (VStr "b"); ORemove (VStr "b")] in
  NoDup ((λ o, ToString (item_key s0 o)) <$> [record_of "a" 1; record_of "b" 2]) ∧
  Forall (λ o, truthy (item_key s0 o) = true) [record_of "a" 1; record_of "b" 2] ∧
  all_along Object_prototype (legal Object_prototype) ops s0 ∧
  ¬ Forall bijection (s0 :: states Object_prototype ops s0) ∧
  _items (exec (moveToStart Object_prototype (VStr "b"))
            (exec (moveToStart Object_prototype (VStr "b")) abc_source))
  = [1; 1; 2]%nat.
Proof.
  split_and!.
  - apply (bool_decide_unpack _). by vm_compute.
  - by repeat constructor.
  - by simpl.
  - intros H. apply Forall_cons in H as [_ H]. apply Forall_cons in H as [_ H].
    apply Forall_cons in H as [[_ H _] _].
    destruct (H 1%nat ltac:(vm_compute; left)) as (it & Hh & Hk).
    vm_compute in Hh. injection Hh as <-. by vm_compute in Hk.
  - by vm_compute.
Qed.

(** ** The records and the mapping a rebuild leaves *)

Lemma records_push_item (k : value) (d : object) (s : state) :
  closed s →
  records (push_item k d s)
  = records s ++ [{| key := k; data := d; index := None; _moved := false |}].
Proof.
  intros [Hi _]. unfold records. simpl. rewrite omap_app. f_equal.
  - apply list_omap_ext. apply Forall2_same_length_lookup. split; [done|].
    intros i r r' Hr Hr'. simplify_eq.
    apply lookup_app_l, Hi, list_elem_of_lookup. by exists i.
  - simpl. by rewrite list_lookup_middle.
Qed.

Lemma mapping_push_item (k : value) (d : object) (s : state) :
  closed s →
  mapping (push_item k d s)
  = <[ToString k := {| key := k; data := d; index := None; _moved := false |}]> (mapping s).
Proof.
  intros [_ Hk]. unfold mapping. simpl.
  rewrite (omap_insert_Some _ _ _ _ {| key := k; data := d; index := None; _moved := false |})
    by by apply list_lookup_middle.
  f_equal. apply map_eq. intros j. rewrite !lookup_omap.
  destruct (_keyMap s !! j) as [r|] eqn:E; [|done]. simpl.
  apply lookup_app_l. by apply (Hk j).
Qed.

Lemma closed_push_item (k : value) (d : object) (s : state) :
  closed s → closed (push_item k d s).
Proof.
  intros [Hi Hk]. split; simpl; rewrite length_app; simpl.
  - intros r [Hr| ->%list_elem_of_singleton]%elem_of_app; [|lia].
    specialize (Hi r Hr). lia.
  - intros j r [[_ <-]|[_ Hj]]%lookup_insert_Some; [lia|].
    specialize (Hk j r Hj). lia.
Qed.

(** What is rebuilt depends on the input and the two options only. *)
Lemma push_fold_rebuild (kf : object → value) (df : object → object)
    (l : list object) (s1 s2 : state) :
  closed s1 → closed s2 →
  records s1 = records s2 → mapping s1 = mapping s2 →
  let s1' := foldl (λ s' o, push_item (kf o) (df o) s') s1 l in
  let s2' := foldl (λ s' o, push_item (kf o) (df o) s') s2 l in
  records s1' = records s2' ∧ mapping s1' = mapping s2'.
Proof.
  revert s1 s2. induction l as [|o l IH]; intros s1 s2 H1 H2 Hr Hm; simpl; [done|].
  apply IH; auto using closed_push_item.
  - by rewrite !records_push_item, Hr.
  - by rewrite !mapping_push_item, Hm.
Qed.

Lemma closed_empty (s : state) : closed (set_keyMap ∅ (set_items [] s)).
Proof.
  split; simpl.
  - intros r Hr. by apply elem_of_nil in Hr.
  - intros k r Hk. by rewrite lookup_empty in Hk.
Qed.

Lemma sink_push_all (B : object → object) (l : list object) (s : state) :
  sink (push_all B l s) = sink s.
Proof. apply push_all_fields. Qed.

Lemma exec_keyedDataAdapter (B : object → object) (d : input) (opts : option options) :
  exec (keyedDataAdapter B d opts) blank =
    push_all B (input_list d)
      (set_keyMap ∅ (set_items []
        (set_keyProperty
          (match keyProperty (default {| binding := false; keyProperty := None |} opts) with
           | Some p => if String.eqb p "" then "key" else p
           | None => "key"
           end)
          (set_binding (binding (default {| binding := false; keyProperty := None |} opts))
             blank)))).
Proof.
  unfold exec at 1. rewrite keyedDataAdapter_eq. unfold exec. by rewrite initItems_eq.
Qed.

Lemma setData_eq (B : object → object) (d : input) (s : state) :
  setData B d s =
    let s' := push_all B (input_list d) (set_keyMap ∅ (set_items [] s)) in
    match _notificationHandler s with
    | Some _ => (Normal tt, notify reload s')
    | None => (Throw TypeError, s')
    end.
Proof. unfold setData. by rewrite initItems_eq. Qed.

(** C5 (amended).  setData(newItems) discards the current sequence and
    mapping and rebuilds them from newItems exactly as construction with the
    same options does, and then itself sends one reload notification to the
    notification handler; construction sends none. *)
Theorem setData_rebuilds_and_reloads
    (B : object → object) (d : input) (s : state) (h : handler) :
  _notificationHandler s = Some h →
  _keyProperty s ≠ "" →
  let opts := Some {| binding := _binding s; keyProperty := Some (_keyProperty s) |} in
  let fresh := exec (keyedDataAdapter B d opts) blank in
  result (setData B d) s = Normal tt ∧
  records (exec (setData B d) s) = records fresh ∧
  mapping (exec (setData B d) s) = mapping fresh ∧
  sink (exec (setData B d) s) = sink s ++ [reload] ∧
  sink fresh = [].
Proof.
  intros Hh Hkp opts fresh. subst fresh opts.
  rewrite exec_keyedDataAdapter. unfold exec, result. rewrite setData_eq, Hh. simpl.
  apply String.eqb_neq in Hkp. rewrite Hkp.
  assert (R : ∀ s1 s2 : state, closed s1 → closed s2 →
            records s1 = records s2 → mapping s1 = mapping s2 →
            _keyProperty s1 = _keyProperty s2 → _binding s1 = _binding s2 →
            records (push_all B (input_list d) s1) = records (push_all B (input_list d) s2) ∧
            mapping (push_all B (input_list d) s1) = mapping (push_all B (input_list d) s2)).
  { intros s1 s2 H1 H2 Hr Hm Ek Eb. unfold push_all, item_key, item_data.
    rewrite Ek, Eb. by apply push_fold_rebuild. }
  destruct (R (set_keyMap ∅ (set_items [] s))
              (set_keyMap ∅ (set_items []
                 (set_keyProperty (_keyProperty s) (set_binding (_binding s) blank)))))
    as [Hr Hm]; auto using closed_empty.
  split_and!; [done|exact Hr|exact Hm| |].
  - by rewrite sink_push_all.
  - by rewrite sink_push_all.
Qed.

(** Without a notification handler the rebuild is done all the same, and the
    call of [reload] on [undefined] throws. *)
Lemma setData_without_handler (B : object → object) (d : input) (s : state) :
  _notificationHandler s = None →
  setData B d s
  = (Throw TypeError, push_all B (input_list d) (set_keyMap ∅ (set_items [] s))).
Proof. intros Hh. by rewrite setData_eq, Hh. Qed.

Lemma setData_rebuilds_and_reloads_witness :
  result (setData no_binding (IArray abc)) abc_source = Normal tt ∧
  sink (exec (setData no_binding (IArray abc)) abc_source) = sink abc_source ++ [reload].
Proof.
  destruct (setData_rebuilds_and_reloads no_binding (IArray abc) abc_source
              ListDataNotificationHandler) as (H1 & _ & _ & H2 & _);
    [reflexivity|by vm_compute|].
  by split.
Defined.

(** C5, as stated, fails: [setData] itself calls [reload] on the handler. *)
Lemma setData_sends_reload :
  sink abc_source = [] ∧
  sink (exec (setData no_binding (IArray [record_of "x" 0])) abc_source) = [reload].
Proof. by vm_compute. Qed.

(** C9 (amended).  Construction with an argument that is not an array does
    not fail: the argument is taken for an empty array, and the store that
    results has count 0 and an empty mapping. *)
Theorem not_an_array_gives_empty_store
    (B : object → object) (v : value) (opts : option options) :
  let s := exec (keyedDataAdapter B (INotArray v) opts) blank in
  result (keyedDataAdapter B (INotArray v) opts) blank = Normal tt ∧
  result getCount s = Normal (wrap 0) ∧
  _items s = [] ∧ _keyMap s = ∅.
Proof.
  intros s. subst s. rewrite exec_keyedDataAdapter.
  unfold result. by rewrite keyedDataAdapter_eq.
Qed.

(** C9, as stated, fails: no error comes of a non-array argument. *)
Lemma not_an_array_is_no_error :
  result (keyedDataAdapter no_binding (INotArray (VNum 42)) None) blank = Normal tt ∧
  result getCount (exec (keyedDataAdapter no_binding (INotArray (VNum 42)) None) blank)
  = Normal (wrap 0).
Proof. by vm_compute. Qed.

(** ** The two fetch methods *)

Lemma itemsFromIndex_eq (s : state) (i cb ca : Z) :
  itemsFromIndex i cb ca s =
    (Normal (if (Z.of_nat (length (_items s)) <=? i) || (i <? 0)
             then wrapError (ErrorFromName doesNotExist)
             else wrap {| items := _items s; offset := Some i; absoluteIndex := None;
                          totalCount := Z.of_nat (length (_items s)) |}),
     s).
Proof. unfold itemsFromIndex. unfold_m. by destruct (_ || _). Qed.

(** C6.  itemsFromIndex(requestIndex, countBefore, countAfter) fails with
    the doesNotExist error exactly when requestIndex is outside [0, count);
    otherwise it resolves to the whole current sequence, whatever countBefore
    and countAfter are, with offset requestIndex and totalCount count.  The
    store is left as it was. *)
Theorem itemsFromIndex_fails_iff_out_of_range (s : state) (i cb ca : Z) :
  let count := Z.of_nat (length (_items s)) in
  (result (itemsFromIndex i cb ca) s = Normal (wrapError (ErrorFromName doesNotExist))
   ↔ ¬ (0 <= i < count)) ∧
  (result (itemsFromIndex i cb ca) s
   = Normal (wrap {| items := _items s; offset := Some i; absoluteIndex := None;
                     totalCount := count |})
   ↔ 0 <= i < count) ∧
  result getCount s = Normal (wrap count) ∧
  exec (itemsFromIndex i cb ca) s = s.
Proof.
  intros count. subst count. unfold result, exec. rewrite itemsFromIndex_eq. simpl.
  destruct (Z.leb_spec (Z.of_nat (length (_items s))) i),
           (Z.ltb_spec i 0); simpl; split_and!; try done; split; try done; lia.
Qed.

Lemma itemsFromKey_present {inherited : string → bool}
    (s : state) (k : value) (cb ca : Z) (hints : value)
    (r : loc) (it : item) :
  _keyMap s !! ToString k = Some r → heap s !! r = Some it →
  itemsFromKey inherited k cb ca hints s =
    (Normal (wrap {| items := _items s; offset := index it; absoluteIndex := index it;
                     totalCount := Z.of_nat (length (_items s)) |}), s).
Proof. intros Hk Hh. unfold itemsFromKey. unfold_m. by rewrite Hk, Hh. Qed.



Lemma containsKey_eq {inherited : string → bool} (s : state) (k : value) :
  containsKey inherited k s
  = (Normal (bool_decide (is_Some (_keyMap s !! ToString k)) || inherited (ToString k)), s).
Proof. done. Qed.




(** ** moveToStart, then itemsFromKey *)

(** C3.  On the store built from a, b and c, moveToStart("b") moves the
    record to the front, and itemsFromKey("b") then reports 1, the position it
    was moved away from, as offset and absoluteIndex: moveToStart assigns the
    index before it splices and does not assign it again. *)
Lemma moveToStart_then_itemsFromKey_not_zero :
  let s' := exec (moveToStart Object_prototype (VStr "b")) abc_source in
  result (moveToStart Object_prototype (VStr "b")) abc_source = Normal (wrap VNull) ∧
  at_index (_items s') 0 = Some 1%nat ∧
  key <$> heap s' !! 1%nat = Some (VStr "b") ∧
  result (itemsFromKey Object_prototype (VStr "b") 0 0 VUndefined) s'
  = Normal (wrap {| items := [1; 0; 2]%nat; offset := Some 1; absoluteIndex := Some 1;
                    totalCount := 3 |}).
Proof. by vm_compute. Qed.

(** ** moveAfter *)

(** C8.  When the records that key and prevKey name are two records, at the
    positions currIdx and prevItemIdx, and the first is not marked as moved,
    moveAfter(key, prevKey, currIdx, prevItemIdx) inserts the record at
    prevItemIdx + 1 and removes it at currIdx + delta, with delta 0 when
    prevItemIdx + 1 > currIdx and 1 otherwise; the record then immediately
    follows the one prevKey names, and the other records keep their relative
    order. *)
Theorem moveAfter_relocates {inherited : string → bool}
    (s : state) (k p : value) (ci pi : Z) (r r' : loc) (it : item) :
  _keyMap s !! ToString k = Some r → _keyMap s !! ToString p = Some r' →
  r ≠ r' →
  at_index (_items s) ci = Some r → at_index (_items s) pi = Some r' →
  heap s !! r = Some it → _moved it = false →
  let newIdx := pi + 1 in
  let delta := if ci <? newIdx then 0 else 1 in
  let s' := exec (moveAfter inherited k p ci pi) s in
  result (moveAfter inherited k p ci pi) s = Normal (wrap VNull) ∧
  _items s' = splice (ci + delta) 1 [] (splice newIdx 0 [r] (_items s)) ∧
  (∃ a b, _items s' = a ++ r' :: r :: b) ∧
  filter (λ x, x ≠ r) (_items s') = filter (λ x, x ≠ r) (_items s) ∧
  _items s' ≡ₚ _items s ∧
  _keyMap s' = _keyMap s ∧ heap s' = heap s ∧ sink s' = sink s.
Proof.
  intros Hk Hp Hne Hci Hpi Hh Hm newIdx delta s'. subst s' newIdx delta.
  unfold exec, result.
  rewrite (moveAfter_eq (inherited:=inherited) s k p ci pi r it Hk Hh), Hm. simpl.
  split_and!; try done.
  - destruct (moveAfter_cases _ r r' ci pi Hci Hpi)
      as [[-> _]|[(a & b & c & _ & ->)|(a & b & c & _ & ->)]].
    + congruence.
    + by exists a, (b ++ c).
    + exists (a ++ b), c. by rewrite <- app_assoc.
  - destruct (moveAfter_cases _ r r' ci pi Hci Hpi)
      as [[-> _]|[(a & b & c & -> & ->)|(a & b & c & -> & ->)]].
    + congruence.
    + rewrite !filter_app, !filter_cons, !filter_app, !filter_cons.
      repeat case_decide; congruence.
    + rewrite !filter_app, !filter_cons, !filter_app, !filter_cons.
      repeat case_decide; congruence.
  - by apply (moveAfter_Permutation _ r r').
Qed.

Lemma moveAfter_relocates_witness :
  (∃ a b, _items (exec (moveAfter Object_prototype (VStr "a") (VStr "c") 0 2) abc_source)
          = a ++ 2%nat :: 0%nat :: b) ∧
  (∃ a b, _items (exec (moveAfter Object_prototype (VStr "c") (VStr "a") 2 0) abc_source)
          = a ++ 0%nat :: 2%nat :: b).
Proof.
  split.
  - destruct (moveAfter_relocates (inherited:=Object_prototype) abc_source
                (VStr "a") (VStr "c") 0 2 0%nat 2%nat
                {| key := VStr "a"; data := record_of "a" 3; index := None; _moved := false |})
      as (_ & _ & H & _); [by vm_compute..|].
    exact H.
  - destruct (moveAfter_relocates (inherited:=Object_prototype) abc_source
                (VStr "c") (VStr "a") 2 0 2%nat 0%nat
                {| key := VStr "c"; data := record_of "c" 2; index := None; _moved := false |})
      as (_ & _ & H & _); [by vm_compute..|].
    exact H.
Defined.

(** ** sort *)

Section Sort.
Context (aI : state → value → Z).

Lemma this_moveAfter_marked {inherited : string → bool}
    (s : state) (k p : value) (r : loc) (it : item) :
  _keyMap s !! ToString k = Some r → heap s !! r = Some it → _moved it = true →
  this_moveAfter inherited aI k p s =
    (Normal tt,
     notify (movedAfter k p) (set_heap (<[r := with_moved false it]> (heap s)) s)).
Proof.
  intros Hk Hh Hm. unfold this_moveAfter.
  unfold bind at 1. unfold modify at 1. unfold bind at 1. unfold gets at 1.
  unfold bind at 1. unfold gets at 1. unfold bind at 1.
  rewrite (moveAfter_eq (inherited:=inherited) _ k p _ _ r it) by done. by rewrite Hm.
Qed.

Lemma this_moveToStart_marked {inherited : string → bool}
    (s : state) (k : value) (r : loc) (it : item) :
  _keyMap s !! ToString k = Some r → heap s !! r = Some it → _moved it = true →
  this_moveToStart inherited k s =
    (Normal tt,
     notify (movedToStart k) (set_heap (<[r := settle (cached s r it) it]> (heap s)) s)).
Proof.
  intros Hk Hh Hm. unfold this_moveToStart.
  unfold bind at 1. unfold modify at 1. unfold bind at 1.
  rewrite (moveToStart_eq (inherited:=inherited) _ k r it) by done. by rewrite Hm.
Qed.

Lemma sort_step_eq {inherited : string → bool}
    (s : state) (i : Z) (r : loc) (it : item) (prev : value) :
  at_index (_items s) i = Some r → heap s !! r = Some it →
  _keyMap s !! ToString (key it) = Some r →
  prev_is s i prev →
  sort_step inherited aI i s =
    (Normal tt,
     if decide (index it = Some i) then s
     else if truthy prev
          then notify (movedAfter (key it) prev)
                 (set_heap (<[r := with_moved false it]> (heap s)) s)
          else notify (movedToStart (key it))
                 (set_heap (<[r := settle (cached s r it) it]> (heap s)) s)).
Proof.
  intros Hi Hh Hk Hprev. unfold sort_step.
  unfold bind at 1. unfold gets at 1. rewrite Hi.
  unfold bind at 1. unfold the at 1. unfold ret at 1.
  unfold bind at 1. unfold deref at 1. unfold bind at 1, gets at 1, the at 1, ret at 1.
  rewrite Hh. destruct (decide (index it = Some i)) as [?|Hne]; [done|].
  assert (Hp : (if i =? 0 then ret VNull
                else p <- gets (λ s, at_index (_items s) (i - 1)) ;;
                     q <- the p ;; pit <- deref q ;; ret (key pit)) s
               = (Normal prev, s)).
  { unfold prev_is in Hprev. destruct (i =? 0); [by subst|].
    destruct Hprev as (q & pit & Hq & Hpit & <-).
    unfold_m. by rewrite Hq, Hpit. }
  unfold bind at 1. rewrite Hp.
  set (s1 := set_heap (<[r := with_moved true it]> (heap s)) s).
  assert (Hu : update r (with_moved true) s = (Normal tt, s1)).
  { unfold update, modify. by rewrite (alter_as_insert _ _ _ _ Hh). }
  assert (Hk1 : _keyMap s1 !! ToString (key it) = Some r) by done.
  assert (Hh1 : heap s1 !! r = Some (with_moved true it))
    by by apply (lookup_insert_heap _ _ it).
  destruct (truthy prev); unfold bind at 1; rewrite Hu.
  - rewrite (this_moveAfter_marked (inherited:=inherited) s1 _ _ r (with_moved true it))
      by done.
    subst s1. simpl. by rewrite list_insert_insert_eq.
  - rewrite (this_moveToStart_marked (inherited:=inherited) s1 _ r (with_moved true it))
      by done.
    subst s1. simpl. by rewrite list_insert_insert_eq.
Qed.

Lemma same_content_refl (h : list item) : same_content h h.
Proof. by intros r. Qed.

Lemma same_content_trans (h1 h2 h3 : list item) :
  same_content h1 h2 → same_content h2 h3 → same_content h1 h3.
Proof. intros H1 H2 r. by rewrite H2, H1. Qed.

Lemma same_content_insert (h : list item) (r : loc) (it it' : item) :
  h !! r = Some it → key it' = key it → data it' = data it →
  same_content h (<[r := it']> h).
Proof.
  intros Hh Hk Hd r'. destruct (decide (r = r')) as [<-|Hne].
  - rewrite (lookup_insert_heap _ _ _ _ Hh), Hh. simpl. by rewrite Hk, Hd.
  - by rewrite list_lookup_insert_ne.
Qed.

Lemma same_content_key (h h' : list item) (r : loc) :
  same_content h h' → key <$> h' !! r = key <$> h !! r.
Proof.
  intros H. specialize (H r).
  destruct (h' !! r), (h !! r); simpl in *; congruence.
Qed.

Lemma same_content_data_of (h h' : list item) (r : loc) :
  same_content h h' → data_of h' r = data_of h r.
Proof.
  intros H. specialize (H r). unfold data_of.
  destruct (h' !! r), (h !! r); simpl in *; congruence.
Qed.

Lemma replay_ext (h h' : list item) (prev : value) (i : Z) (l : list loc) :
  (∀ x, x ∈ l → h' !! x = h !! x) → replay h' prev i l = replay h prev i l.
Proof.
  revert prev i. induction l as [|r l IH]; intros prev i H; simpl; [done|].
  unfold step_event. rewrite (H r) by by left.
  f_equal. apply IH. intros x Hx. apply H. by right.
Qed.

(** One turn of the loop: the sequence and the mapping stay, the record at
    [i] keeps its key and payload, and the sink is told what [step_event]
    says. *)
Lemma sort_step_effect {inherited : string → bool}
    (s : state) (i : Z) (r : loc) (it : item) (prev : value) :
  at_index (_items s) i = Some r → heap s !! r = Some it →
  _keyMap s !! ToString (key it) = Some r →
  prev_is s i prev →
  ∃ s' it', sort_step inherited aI i s = (Normal tt, s') ∧
            _items s' = _items s ∧ _keyMap s' = _keyMap s ∧ _editing s' = _editing s ∧
            heap s' = <[r := it']> (heap s) ∧ key it' = key it ∧ data it' = data it ∧
            sink s' = sink s ++ step_event (heap s) prev i r.
Proof.
  intros Hi Hh Hk Hprev.
  rewrite (sort_step_eq (inherited:=inherited) s i r it prev Hi Hh Hk Hprev).
  unfold step_event. rewrite Hh.
  destruct (decide (index it = Some i)) as [?|Hne].
  - exists s, it. rewrite app_nil_r, list_insert_id by done. done.
  - destruct (truthy prev); eexists _, _; (split; [done|]); simpl; done.
Qed.

Lemma sort_loop_effect {inherited : string → bool} (rest : list loc) :
  ∀ (pre : list loc) (s : state) (prev : value),
    _items s = pre ++ rest → bijection s → prev_is s (Z.of_nat (length pre)) prev →
    ∃ s', sort_loop inherited aI (length rest) (Z.of_nat (length pre)) s = (Normal tt, s') ∧
          _items s' = _items s ∧ _keyMap s' = _keyMap s ∧ _editing s' = _editing s ∧
          same_content (heap s) (heap s') ∧
          sink s' = sink s ++ replay (heap s) prev (Z.of_nat (length pre)) rest.
Proof.
  induction rest as [|r rest IH]; intros pre s prev Hl Hb Hprev.
  - exists s. simpl. rewrite app_nil_r. by split_and!.
  - assert (Hi : at_index (_items s) (Z.of_nat (length pre)) = Some r)
      by (rewrite Hl; apply at_index_app_length).
    destruct (bij_items s Hb r) as (it & Hh & Hk); [by eapply at_index_elem_of|].
    destruct (sort_step_effect (inherited:=inherited) s _ r it prev Hi Hh Hk Hprev)
      as (s1 & it' & Hstep & Hit1 & Hkm1 & Hed1 & Hh1 & Hkey & Hdata & Hsink1).
    assert (Hc1 : same_content (heap s) (heap s1))
      by (rewrite Hh1; by apply (same_content_insert _ _ it)).
    assert (Hb1 : bijection s1).
    { apply (bijection_transport s); [done|by rewrite Hit1|done|].
      intros x. by apply same_content_key. }
    assert (Hh1r : heap s1 !! r = Some it')
      by (rewrite Hh1; by apply (lookup_insert_heap _ _ it)).
    assert (Hprev1 : prev_is s1 (Z.of_nat (length (pre ++ [r]))) (key it)).
    { unfold prev_is. rewrite length_app. simpl.
      destruct (Z.eqb_spec (Z.of_nat (length pre + 1)) 0); [lia|].
      exists r, it'. split_and!; [|done|done].
      replace (Z.of_nat (length pre + 1) - 1) with (Z.of_nat (length pre)) by lia.
      by rewrite Hit1. }
    destruct (IH (pre ++ [r]) s1 (key it)) as (s' & Hloop & Hit & Hkm & Hed & Hc & Hsink);
      [by rewrite Hit1, Hl, <- app_assoc|done|done|].
    exists s'. split_and!.
    + simpl. unfold bind. rewrite Hstep.
      replace (Z.of_nat (length pre) + 1) with (Z.of_nat (length (pre ++ [r])))
        by (rewrite length_app; simpl; lia).
      done.
    + congruence.
    + congruence.
    + congruence.
    + by apply (same_content_trans _ (heap s1)).
    + rewrite Hsink, Hsink1, <- app_assoc. simpl. rewrite Hh. simpl. do 2 f_equal.
      replace (Z.of_nat (length (pre ++ [r]))) with (Z.of_nat (length pre) + 1)
        by (rewrite length_app; simpl; lia).
      apply replay_ext. intros x Hx. rewrite Hh1.
      apply list_lookup_insert_ne. intros ->.
      pose proof (bij_NoDup s Hb) as Hnd. rewrite Hl in Hnd.
      apply NoDup_app in Hnd as (_ & _ & Hnd). apply NoDup_cons in Hnd as [Hnd _].
      done.
Qed.

(** [sort] as a whole, on a store in which the mapping and the sequence are
    in bijection. *)
Lemma sort_effect {inherited : string → bool} (sortFn : object → object → Z) (s : state) :
  bijection s →
  ∃ s', sort inherited aI sortFn s = (Normal tt, s') ∧
        _items s' = array_sort (by_data sortFn (heap s)) (_items s) ∧
        _keyMap s' = _keyMap s ∧ _editing s' = _editing s ∧
        same_content (heap s) (heap s') ∧
        sink s' = sink s ++ replay (heap s) VNull 0 (_items s') ∧
        bijection s'.
Proof.
  intros Hb. unfold sort.
  unfold bind at 1, gets at 1. unfold bind at 1, gets at 1.
  unfold bind at 1, modify at 1.
  set (l' := array_sort _ (_items s)).
  set (s0 := set_items l' s).
  assert (Hp : l' ≡ₚ _items s) by apply array_sort_Permutation.
  assert (Hlen : length (_items s) = length l') by by rewrite Hp.
  rewrite Hlen.
  assert (Hb0 : ∀ b, bijection (set_editing b s0)).
  { intros b. by apply (bijection_transport s). }
  assert (Hb0' : bijection s0) by by apply (bijection_transport s).
  destruct (_editing s) eqn:Hed.
  - destruct (sort_loop_effect (inherited:=inherited) l' [] s0 VNull)
      as (s' & Hloop & Hit & Hkm & Hed' & Hc & Hsink);
      [done|done|done|].
    exists s'. unfold bind, ret. change (Z.of_nat (length [])) with 0 in Hloop. rewrite Hloop.
    split_and!; try done.
    + rewrite Hed'. done.
    + by rewrite Hsink, Hit.
    + apply (bijection_transport s0); [done|by rewrite Hit|done|].
      intros x. by apply same_content_key.
  - destruct (sort_loop_effect (inherited:=inherited) l' [] (set_editing true s0) VNull)
      as (s' & Hloop & Hit & Hkm & Hed' & Hc & Hsink); [done|done|done|].
    exists (set_editing false s'). unfold bind, this_beginEdits, this_endEdits,
      beginEdits, endEdits, modify. change (Z.of_nat (length [])) with 0 in Hloop. rewrite Hloop.
    split_and!; try done.
    + simpl. by rewrite Hsink, Hit.
    + apply (bijection_transport s0); [done|by simpl; rewrite Hit|done|].
      intros x. by apply same_content_key.
Qed.

End Sort.

Lemma consistent_by_data (sortFn : object → object → Z) (h : list item) :
  consistent sortFn → consistent (by_data sortFn h).
Proof.
  intros [R S T]. split; unfold by_data.
  - intros a. apply R.
  - intros a b. apply S.
  - intros a b c. apply T.
Qed.

Lemma array_sort_stable_by {A B} (cmp : A → A → Z) (f : B → A) (a : A) (l : list B) :
  consistent cmp →
  filter (λ y, cmp (f y) a = 0) (array_sort (λ x y, cmp (f x) (f y)) l)
  = filter (λ y, cmp (f y) a = 0) l.
Proof.
  intros Hc.
  assert (Hins : ∀ x l, filter (λ y, cmp (f y) a = 0) (sort_insert (λ x y, cmp (f x) (f y)) x l)
                        = filter (λ y, cmp (f y) a = 0) (x :: l)).
  { clear l. intros x l. induction l as [|y l IH]; simpl; [done|].
    destruct (Z.leb_spec (cmp (f x) (f y)) 0) as [Hxy|Hxy]; [done|].
    rewrite filter_cons, IH, !filter_cons.
    destruct (decide (cmp (f y) a = 0)) as [Hy|Hy], (decide (cmp (f x) a = 0)) as [Hx|Hx];
      try done.
    pose proof (cmp_equiv cmp Hc (f x) (f y) a Hx Hy). lia. }
  induction l as [|x l IH]; simpl; [done|].
  by rewrite Hins, !filter_cons, IH.
Qed.

Lemma data_records (h : list item) (l : list loc) :
  (∀ r, r ∈ l → is_Some (h !! r)) →
  data <$> omap (λ r, h !! r) l = data_of h <$> l.
Proof.
  induction l as [|r l IH]; intros H; [done|].
  destruct (H r) as [it Hit]; [by left|].
  simpl. rewrite Hit. simpl. unfold data_of at 1. rewrite Hit. simpl.
  f_equal. apply IH. intros x Hx. apply H. by right.
Qed.

Lemma bijection_valid (s : state) (r : loc) :
  bijection s → r ∈ _items s → is_Some (heap s !! r).
Proof. intros Hb Hr. destruct (bij_items s Hb r Hr) as (it & -> & _). by eexists. Qed.

Lemma exec_KeyedDataSource (B : object → object) (d : input) (opts : option options) :
  exec (KeyedDataSource B d opts) blank
  = set_handler (Some ListDataNotificationHandler) (exec (keyedDataAdapter B d opts) blank).
Proof.
  unfold KeyedDataSource, exec, bind. by rewrite keyedDataAdapter_eq.
Qed.

Lemma bijection_abc_source : bijection abc_source.
Proof.
  unfold abc_source. rewrite exec_KeyedDataSource.
  apply (bijection_transport (exec (keyedDataAdapter no_binding (IArray abc) None) blank));
    try done.
  apply bijection_keyedDataAdapter. exact abc_keys_NoDup.
Qed.

(** C2.  On a store whose mapping and sequence are in bijection, and for
    every comparator over payloads, sort(comparator) completes and leaves the
    sequence in the order that the stable sort of the payloads with the
    comparator gives: the moves replayed afterwards do not disturb it.  For a
    consistent comparator the payloads end up in non-decreasing order and
    records that compare equal keep their relative order.  From
    [{key:"a",v:3},{key:"b",v:1},{key:"c",v:2}], sorting by v gives the key
    order ["b","c","a"], and getAt(0) is then the payload of "b". *)
Theorem sort_orders_by_comparator {inherited : string → bool}
    (aI : state → value → Z) (sortFn : object → object → Z) (s : state) :
  bijection s →
  let s' := exec (sort inherited aI sortFn) s in
  result (sort inherited aI sortFn) s = Normal tt ∧
  data <$> records s' = array_sort sortFn (data <$> records s) ∧
  _items s' = array_sort (by_data sortFn (heap s)) (_items s) ∧
  _items s' ≡ₚ _items s ∧
  (consistent sortFn →
   StronglySorted (λ x y, sortFn x y <= 0) (data <$> records s') ∧
   ∀ o, filter (λ r, sortFn (data_of (heap s) r) o = 0) (_items s')
        = filter (λ r, sortFn (data_of (heap s) r) o = 0) (_items s)) ∧
  (let t := exec (sort inherited no_hint by_v) abc_source in
   key <$> records t = [VStr "b"; VStr "c"; VStr "a"] ∧
   result (getAt 0) t = Normal (Some (record_of "b" 1))).
Proof.
  intros Hb s'. subst s'. unfold exec, result.
  destruct (sort_effect (inherited:=inherited) aI sortFn s Hb)
      as (s' & -> & Hit & Hkm & Hed & Hc & Hsink & Hb').
  simpl.
  assert (Hdata : data <$> records s' = array_sort sortFn (data <$> records s)).
  { unfold records.
    rewrite !data_records by (intros r Hr; by apply bijection_valid).
    rewrite Hit.
    rewrite <- (array_sort_map sortFn (data_of (heap s))).
    apply list_fmap_ext. intros i r _. by apply same_content_data_of. }
  split_and!; [done|exact Hdata|exact Hit| | |by vm_compute|by vm_compute].
  - rewrite Hit. apply array_sort_Permutation.
  - intros Hcons. split.
    + rewrite Hdata. by apply array_sort_StronglySorted.
    + intros o. rewrite Hit. by apply (array_sort_stable_by sortFn (data_of (heap s))).
Qed.

Lemma sort_orders_by_comparator_witness :
  data <$> records (exec (sort Object_prototype no_hint by_v) abc_source)
  = array_sort by_v (data <$> records abc_source).
Proof.
  destruct (sort_orders_by_comparator (inherited:=Object_prototype) no_hint by_v
              abc_source bijection_abc_source)
    as (_ & H & _).
  exact H.
Defined.

Lemma replay_nil (h : list item) (l : list loc) :
  ∀ (prev : value) (i : Z),
    (∀ r, r ∈ l → is_Some (h !! r)) →
    replay h prev i l = [] ↔
    ∀ (j : nat) r it, l !! j = Some r → h !! r = Some it →
                      index it = Some (i + Z.of_nat j).
Proof.
  induction l as [|r l IH]; intros prev i Hv; simpl.
  - split; [|done]. intros _ j r it Hj. by rewrite lookup_nil in Hj.
  - destruct (Hv r) as [it Hit]; [by left|].
    rewrite app_nil, IH by (intros x Hx; apply Hv; by right).
    unfold step_event. rewrite Hit. split.
    + intros [H0 Hrest] [|j] x itx Hj Hx; simpl in Hj.
      * injection Hj as <-. rewrite Hit in Hx. injection Hx as <-.
        destruct (decide (index it = Some i)) as [E|E]; [|done].
        by rewrite Z.add_0_r.
      * rewrite (Hrest j x itx Hj Hx). f_equal. lia.
    + intros H. split.
      * rewrite decide_True; [done|]. rewrite (H 0%nat r it) by done. f_equal. lia.
      * intros j x itx Hj Hx. rewrite (H (S j) x itx) by done. f_equal. lia.
Qed.

Lemma sort_insert_Sorted_on {A} (cmp : A → A → Z) (x : A) (l : list A) :
  (∀ y, y ∈ l → 0 < cmp x y → cmp y x <= 0) →
  Sorted (λ a b, cmp a b <= 0) l → Sorted (λ a b, cmp a b <= 0) (sort_insert cmp x l).
Proof.
  intros Hx. induction 1 as [|y l Hl IH Hy]; simpl.
  - by repeat constructor.
  - destruct (Z.leb_spec (cmp x y) 0) as [Hxy|Hxy].
    + constructor; [by constructor|by constructor].
    + constructor; [apply IH; intros z Hz; apply Hx; by right|].
      assert (Hyx : cmp y x <= 0) by (apply Hx; [by left|done]).
      destruct Hy as [|z l Hyz]; simpl.
      * by constructor.
      * by destruct (cmp x z <=? 0); constructor.
Qed.

Lemma array_sort_Sorted_on {A} (cmp : A → A → Z) (l : list A) :
  (∀ a b, a ∈ l → b ∈ l → 0 < cmp a b → cmp b a <= 0) →
  Sorted (λ a b, cmp a b <= 0) (array_sort cmp l).
Proof.
  induction l as [|x l IH]; intros H; simpl; [constructor|].
  apply sort_insert_Sorted_on.
  - intros y Hy. rewrite array_sort_Permutation in Hy. apply H; [by left|by right].
  - apply IH. intros a b Ha Hb. apply H; by right.
Qed.

Lemma consistent_on_by_data (sortFn : object → object → Z) (s : state) (a b : loc) :
  bijection s → consistent_on (data <$> records s) sortFn →
  a ∈ _items s → b ∈ _items s →
  0 < by_data sortFn (heap s) a b → by_data sortFn (heap s) b a <= 0.
Proof.
  intros Hb (_ & Hswap & _) Ha Hb'. unfold by_data, records in *.
  rewrite data_records in Hswap by (intros r Hr; by apply bijection_valid).
  pose proof (Hswap (data_of (heap s) a) (data_of (heap s) b)
                ltac:(by apply list_elem_of_fmap_2) ltac:(by apply list_elem_of_fmap_2)).
  lia.
Qed.

(** X26.  On a store whose mapping and sequence are in bijection, and for a
    comparator that is consistent on the payloads of the store, a second sort
    with the same comparator completes and leaves the sequence as the first
    one left it. *)
Theorem sort_twice_keeps_the_order (inherited : string → bool)
    (aI : state → value → Z) (sortFn : object → object → Z) (s : state) :
  bijection s → consistent_on (data <$> records s) sortFn →
  let s1 := exec (sort inherited aI sortFn) s in
  result (sort inherited aI sortFn) s1 = Normal tt ∧
  _items (exec (sort inherited aI sortFn) s1) = _items s1.
Proof.
  intros Hb Hcons s1. subst s1. unfold exec, result.
  destruct (sort_effect (inherited:=inherited) aI sortFn s Hb)
    as (s1 & -> & Hit1 & _ & _ & Hc1 & _ & Hb1).
  simpl.
  destruct (sort_effect (inherited:=inherited) aI sortFn s1 Hb1)
    as (s2 & -> & Hit2 & _ & _ & _ & _ & _).
  simpl. split; [done|].
  rewrite Hit2, Hit1.
  rewrite (array_sort_ext _ (by_data sortFn (heap s))).
  - apply array_sort_sorted, array_sort_Sorted_on.
    intros a b Ha Hb'. by apply consistent_on_by_data.
  - intros a b. unfold by_data. by rewrite !(same_content_data_of (heap s) (heap s1)).
Qed.

Lemma by_v_record_of (k k' : string) (v v' : Z) :
  by_v (record_of k v) (record_of k' v') = v - v'.
Proof. done. Qed.

Lemma consistent_on_records (l : list object) :
  (∀ x, x ∈ l → ∃ k v, x = record_of k v) → consistent_on l by_v.
Proof.
  intros Hl. split_and!.
  - intros a (k & v & ->)%Hl. rewrite by_v_record_of. lia.
  - intros a b (k & v & ->)%Hl (k' & v' & ->)%Hl. rewrite !by_v_record_of. lia.
  - intros a b c (k & v & ->)%Hl (k' & v' & ->)%Hl (k'' & v'' & ->)%Hl.
    rewrite !by_v_record_of. lia.
Qed.

Lemma consistent_on_abc_source : consistent_on (data <$> records abc_source) by_v.
Proof.
  apply consistent_on_records. intros x Hx.
  assert (E : data <$> records abc_source = abc) by by vm_compute.
  rewrite E in Hx. unfold abc in Hx.
  repeat (apply elem_of_cons in Hx as [->|Hx]; [by eexists _, _|]).
  by apply elem_of_nil in Hx.
Qed.

Lemma sort_twice_keeps_the_order_witness :
  let s1 := exec (sort Object_prototype no_hint by_v) abc_source in
  _items (exec (sort Object_prototype no_hint by_v) s1) = _items s1.
Proof.
  destruct (sort_twice_keeps_the_order Object_prototype no_hint by_v abc_source
              bijection_abc_source consistent_on_abc_source) as [_ H].
  exact H.
Defined.

(** C4.  On the store built from a, b and c, sorted by v, a second sort
    with the same comparator changes nothing in the sequence and still makes
    a moveAfter call for c and for a: the loop compares the position with
    the record's index, which these two records do not have. *)
Lemma second_sort_still_moves :
  let s1 := exec (sort Object_prototype no_hint by_v) abc_source in
  let s2 := exec (sort Object_prototype no_hint by_v) s1 in
  _items s2 = _items s1 ∧
  sink s2 = sink s1 ++ [movedAfter (VStr "c") (VStr "b"); movedAfter (VStr "a") (VStr "c")].
Proof. by vm_compute. Qed.

(** ** The cached index *)

Lemma move_dangling {inherited : string → bool}
    (s : state) (k p : value) (ci pi : Z) (r : loc) :
  _keyMap s !! ToString k = Some r → heap s !! r = None →
  moveToStart inherited k s = (Throw TypeError, s) ∧
  moveToEnd inherited k s = (Throw TypeError, s) ∧
  moveAfter inherited k p ci pi s = (Throw TypeError, s).
Proof.
  intros Hk Hh. unfold moveToStart, moveToEnd, moveAfter. unfold_m.
  by rewrite Hk; simpl; rewrite Hh.
Qed.

Lemma index_kept_insert (h : list item) (r x : loc) (it it' itx : item) (i : Z) :
  h !! r = Some it → (index it = Some i → index it' = Some i) →
  h !! x = Some itx → index itx = Some i →
  index <$> <[r := it']> h !! x = Some (Some i).
Proof.
  intros Hr Hi Hx Hxi. destruct (decide (r = x)) as [->|Hne].
  - rewrite (lookup_insert_heap _ _ _ _ Hr). simpl. f_equal. apply Hi. congruence.
  - rewrite list_lookup_insert_ne, Hx by done. simpl. by f_equal.
Qed.

(** No move assigns to an index that is set. *)
Lemma moves_keep_index {inherited : string → bool}
    (s : state) (k p : value) (ci pi : Z) (x : loc) (itx : item) (i : Z) :
  heap s !! x = Some itx → index itx = Some i →
  index <$> heap (exec (moveToStart inherited k) s) !! x = Some (Some i) ∧
  index <$> heap (exec (moveToEnd inherited k) s) !! x = Some (Some i) ∧
  index <$> heap (exec (moveAfter inherited k p ci pi) s) !! x = Some (Some i).
Proof.
  intros Hx Hi. unfold exec.
  assert (Hsame : index <$> heap s !! x = Some (Some i)) by (by rewrite Hx; simpl; f_equal).
  destruct (_keyMap s !! ToString k) as [r|] eqn:Hk.
  - destruct (heap s !! r) as [it|] eqn:Hh.
    + rewrite (moveToStart_eq (inherited:=inherited) s k r it Hk Hh),
        (moveToEnd_eq (inherited:=inherited) s k r it Hk Hh),
        (moveAfter_eq (inherited:=inherited) s k p ci pi r it Hk Hh). simpl.
      assert (Hs : index <$> <[r := settle (cached s r it) it]> (heap s) !! x = Some (Some i)).
      { apply (index_kept_insert _ _ _ it _ itx); try done. simpl. by intros ->. }
      assert (Hm : index <$> <[r := with_moved false it]> (heap s) !! x = Some (Some i)).
      { by apply (index_kept_insert _ _ _ it _ itx). }
      split_and!.
      * by destruct (_moved it), (0 <? cached s r it).
      * destruct (_moved it); [done|].
        by destruct (cached s r it <? Z.of_nat (length (_items s)) - 1).
      * by destruct (_moved it).
    + by destruct (move_dangling (inherited:=inherited) s k p ci pi r Hk Hh) as (-> & -> & ->).
  - by destruct (move_absent (inherited:=inherited) s k p ci pi Hk) as (-> & -> & ->).
Qed.

Lemma cached_at_position (s : state) (r : loc) (it : item) (c : Z) :
  NoDup (_items s) → at_index (_items s) c = Some r →
  index it = Some c ∨ index it = None → cached s r it = c.
Proof.
  intros Hnd Hc [Hi|Hi]; unfold cached; rewrite Hi; [done|].
  apply at_index_split in Hc as (a & b & Hl & ->). rewrite Hl in *.
  rewrite findIndex_from_app; [lia|].
  apply NoDup_app in Hnd as (_ & Hab & _). intros Hin. apply (Hab r Hin). by left.
Qed.

Lemma splice_keeps_head {A} (l : list A) (x : A) (c : Z) :
  0 < c → at_index l 0 = Some x → x ∈ splice c 1 [] l.
Proof.
  intros Hc Hx. destruct l as [|y l]; [done|]. injection Hx as ->.
  unfold splice. destruct (Z.ltb_spec c 0); [lia|].
  apply elem_of_app. left.
  destruct (Z.to_nat (Z.min c (Z.of_nat (length (x :: l))))) as [|n] eqn:E.
  - simpl length in E. lia.
  - by left.
Qed.

(** A record that [moveToStart] relocates keeps the index it had cached or,
    without one, gets the position it is moved away from; what
    [itemsFromKey] and [remove] do next goes by that index. *)
Lemma moveToStart_leaves_stale_index {inherited : string → bool}
    (s : state) (k : value) (r : loc) (it : item) (c : Z) :
  NoDup (_items s) →
  _keyMap s !! ToString k = Some r → heap s !! r = Some it → _moved it = false →
  at_index (_items s) c = Some r → index it = Some c ∨ index it = None →
  0 < c →
  let s' := exec (moveToStart inherited k) s in
  at_index (_items s') 0 = Some r ∧
  index <$> heap s' !! r = Some (Some c) ∧
  (∀ cb ca hints, ∃ res, result (itemsFromKey inherited k cb ca hints) s' = Normal (wrap res) ∧
                         offset res = Some c ∧ absoluteIndex res = Some c) ∧
  _items (exec (remove k) s') = splice c 1 [] (_items s') ∧
  r ∈ _items (exec (remove k) s') ∧
  _keyMap (exec (remove k) s') !! ToString k = None.
Proof.
  intros Hnd Hk Hh Hm Hc Hi Hpos s'.
  assert (Hs : s' = set_items (splice 0 0 [r] (splice c 1 [] (_items s)))
                      (set_heap (<[r := settle c it]> (heap s)) s)).
  { subst s'. unfold exec. rewrite (moveToStart_eq (inherited:=inherited) s k r it Hk Hh), Hm.
    rewrite (cached_at_position s r it c Hnd Hc Hi). simpl.
    by destruct (Z.ltb_spec 0 c); [|lia]. }
  clearbody s'.
  assert (Hh' : heap s' !! r = Some (settle c it))
    by (subst s'; simpl; by apply (lookup_insert_heap _ _ it)).
  assert (Hk' : _keyMap s' !! ToString k = Some r) by by subst s'.
  assert (Hc' : cached s' r (settle c it) = c)
    by (unfold cached; simpl; by destruct Hi as [->| ->]).
  assert (H0 : at_index (_items s') 0 = Some r).
  { subst s'. simpl. apply at_index_split in Hc as (a & b & -> & ->).
    rewrite splice_delete_app. by rewrite (splice_insert_at [] (a ++ b)). }
  split_and!.
  - done.
  - rewrite Hh'. simpl. by destruct Hi as [->| ->].
  - intros cb ca hints. eexists. unfold result.
    rewrite (itemsFromKey_present (inherited:=inherited) s' k cb ca hints r _ Hk' Hh'). simpl.
    by destruct Hi as [->| ->].
  - unfold exec. rewrite (remove_eq s' k r _ Hk' Hh'), Hc'. simpl.
    by destruct (Z.leb_spec 0 c); [|lia].
  - unfold exec. rewrite (remove_eq s' k r _ Hk' Hh'), Hc'. simpl.
    destruct (Z.leb_spec 0 c); [|lia]. simpl. by apply splice_keeps_head.
  - unfold exec. rewrite (remove_eq s' k r _ Hk' Hh'), Hc'. simpl.
    destruct (Z.leb_spec 0 c); [|lia]. simpl. apply lookup_delete_eq.
Qed.

Lemma moveToEnd_leaves_stale_index {inherited : string → bool}
    (s : state) (k : value) (r : loc) (it : item) (c : Z) :
  NoDup (_items s) →
  _keyMap s !! ToString k = Some r → heap s !! r = Some it → _moved it = false →
  at_index (_items s) c = Some r → index it = Some c ∨ index it = None →
  c < Z.of_nat (length (_items s)) - 1 →
  let s' := exec (moveToEnd inherited k) s in
  at_index (_items s') (Z.of_nat (length (_items s)) - 1) = Some r ∧
  index <$> heap s' !! r = Some (Some c).
Proof.
  intros Hnd Hk Hh Hm Hc Hi Hpos s'. subst s'. unfold exec.
  rewrite (moveToEnd_eq (inherited:=inherited) s k r it Hk Hh), Hm.
  rewrite (cached_at_position s r it c Hnd Hc Hi). simpl.
  destruct (Z.ltb_spec c (Z.of_nat (length (_items s)) - 1)); [|lia]. simpl.
  split.
  - apply at_index_split in Hc as (a & b & -> & ->).
    rewrite splice_delete_app.
    replace (Z.of_nat (length (a ++ r :: b)) - 1) with (Z.of_nat (length (a ++ b)))
      by (rewrite !length_app; simpl; lia).
    apply (at_index_app_length (a ++ b) []).
  - rewrite (lookup_insert_heap _ _ it) by done. simpl. by destruct Hi as [->| ->].
Qed.

(** C10.  No move operation assigns to a cached index that is set: after
    moveToStart, moveToEnd or moveAfter, every record whose index was set
    still has that value, also the record that was relocated (a record that
    had none gets, from moveToStart and moveToEnd, the position it is moved
    away from).  What reads the cached index afterwards goes by that value and
    not by the record's position: itemsFromKey reports it as offset and
    absoluteIndex, remove splices at it, and the loop of sort compares it with
    the loop index. *)
Theorem cached_index_is_stale_after_move {inherited : string → bool} :
  (∀ s k p ci pi x itx i,
     heap s !! x = Some itx → index itx = Some i →
     index <$> heap (exec (moveToStart inherited k) s) !! x = Some (Some i) ∧
     index <$> heap (exec (moveToEnd inherited k) s) !! x = Some (Some i) ∧
     index <$> heap (exec (moveAfter inherited k p ci pi) s) !! x = Some (Some i)) ∧
  (∀ s k r it c,
     NoDup (_items s) →
     _keyMap s !! ToString k = Some r → heap s !! r = Some it → _moved it = false →
     at_index (_items s) c = Some r → index it = Some c ∨ index it = None →
     (0 < c →
      let s' := exec (moveToStart inherited k) s in
      at_index (_items s') 0 = Some r ∧
      index <$> heap s' !! r = Some (Some c) ∧
      (∀ cb ca hints, ∃ res,
         result (itemsFromKey inherited k cb ca hints) s' = Normal (wrap res) ∧
         offset res = Some c ∧ absoluteIndex res = Some c) ∧
      _items (exec (remove k) s') = splice c 1 [] (_items s') ∧
      r ∈ _items (exec (remove k) s') ∧
      _keyMap (exec (remove k) s') !! ToString k = None) ∧
     (c < Z.of_nat (length (_items s)) - 1 →
      let s' := exec (moveToEnd inherited k) s in
      at_index (_items s') (Z.of_nat (length (_items s)) - 1) = Some r ∧
      index <$> heap s' !! r = Some (Some c))) ∧
  (∀ s k r it,
     _keyMap s !! ToString k = Some r → heap s !! r = Some it →
     (∀ cb ca hints,
        result (itemsFromKey inherited k cb ca hints) s
        = Normal (wrap {| items := _items s; offset := index it;
                          absoluteIndex := index it;
                          totalCount := Z.of_nat (length (_items s)) |})) ∧
     (∀ i, index it = Some i → 0 <= i →
           _items (exec (remove k) s) = splice i 1 [] (_items s) ∧
           _keyMap (exec (remove k) s) = delete (ToString k) (_keyMap s))) ∧
  (∀ aI s i r it prev j,
     at_index (_items s) i = Some r → heap s !! r = Some it →
     _keyMap s !! ToString (key it) = Some r → prev_is s i prev →
     index it = Some j →
     sink (exec (sort_step inherited aI i) s)
     = sink s ++ (if decide (j = i) then []
                  else [if truthy prev then movedAfter (key it) prev
                        else movedToStart (key it)])).
Proof.
  split_and!.
  - intros s k p ci pi x itx i. apply moves_keep_index.
  - intros s k r it c Hnd Hk Hh Hm Hc Hi. split; intros Hpos.
    + by apply (moveToStart_leaves_stale_index (inherited:=inherited) s k r it c).
    + by apply (moveToEnd_leaves_stale_index (inherited:=inherited) s k r it c).
  - intros s k r it Hk Hh. split.
    + intros cb ca hints. unfold result.
      by rewrite (itemsFromKey_present (inherited:=inherited) s k cb ca hints r it).
    + intros i Hi Hpos. unfold exec. rewrite (remove_eq s k r it Hk Hh).
      unfold cached. rewrite Hi. simpl.
      by destruct (Z.leb_spec 0 i); [|lia].
  - intros aI s i r it prev j Hi Hh Hk Hprev Hj. unfold exec.
    rewrite (sort_step_eq (inherited:=inherited) aI s i r it prev Hi Hh Hk Hprev), Hj. simpl.
    destruct (decide (Some j = Some i)) as [[= ->]|Hne].
    + rewrite decide_True by done. by rewrite app_nil_r.
    + rewrite decide_False by congruence. by destruct (truthy prev).
Qed.

Lemma cached_index_is_stale_after_move_witness :
  let s' := exec (moveToStart Object_prototype (VStr "c")) abc_source in
  at_index (_items s') 0 = Some 2%nat ∧
  index <$> heap s' !! 2%nat = Some (Some 2) ∧
  _items (exec (remove (VStr "c")) s') = splice 2 1 [] (_items s') ∧
  2%nat ∈ _items (exec (remove (VStr "c")) s').
Proof.
  destruct (cached_index_is_stale_after_move (inherited:=Object_prototype)) as (_ & H & _).
  destruct (H abc_source (VStr "c") 2%nat
              {| key := VStr "c"; data := record_of "c" 2; index := None; _moved := false |}
              2) as [H' _].
  - apply (bij_NoDup _ bijection_abc_source).
  - by vm_compute.
  - by vm_compute.
  - done.
  - by vm_compute.
  - by right.
  - destruct (H' ltac:(lia)) as (H1 & H2 & _ & H3 & H4 & _). by split_and!.
Defined.

(** * Further properties of the keyed data source *)

(** ** A key that is not in the mapping *)

(** X1.  On a key under which the mapping has no entry of its own, remove
    completes and leaves the store as it was, and get gives undefined.
    containsKey is false for it unless the key is the name of a member
    inherited from Object.prototype, and then it is true.  Where it is no such
    name, moveToStart, moveToEnd and moveAfter throw a TypeError (they read a
    property of undefined) and leave the store as it was. *)
Theorem missing_key (inherited : string → bool) (s : state) (k p : value) (ci pi : Z) :
  _keyMap s !! ToString k = None →
  remove k s = (Normal (wrap VNull), s) ∧
  get k s = (Normal None, s) ∧
  containsKey inherited k s = (Normal (inherited (ToString k)), s) ∧
  (inherited (ToString k) = false →
   moveToStart inherited k s = (Throw TypeError, s) ∧
   moveToEnd inherited k s = (Throw TypeError, s) ∧
   moveAfter inherited k p ci pi s = (Throw TypeError, s)).
Proof.
  intros Hk. split_and!.
  - by apply remove_absent.
  - unfold get. unfold_m. by rewrite Hk.
  - rewrite containsKey_eq, Hk. done.
  - intros Hi. pose proof (move_absent (inherited:=inherited) s k p ci pi Hk) as H.
    by rewrite Hi in H.
Qed.

Lemma missing_key_witness :
  remove (VStr "z") abc_source = (Normal (wrap VNull), abc_source) ∧
  containsKey Object_prototype (VStr "z") abc_source = (Normal false, abc_source) ∧
  moveToStart Object_prototype (VStr "z") abc_source = (Throw TypeError, abc_source).
Proof.
  destruct (missing_key Object_prototype abc_source (VStr "z") VNull 0 0)
    as (H1 & _ & H2 & H3); [by vm_compute|].
  destruct (H3 eq_refl) as (H4 & _). by split_and!.
Defined.

(** ** moveToStart and moveToEnd on the sequence *)

Lemma filter_ne_absent {A} `{EqDecision A} (l : list A) (r : A) :
  r ∉ l → filter (λ x, x ≠ r) l = l.
Proof.
  induction l as [|y l IH]; intros Hr; [done|].
  apply not_elem_of_cons in Hr as [Hne Hr].
  rewrite filter_cons_True by done. by rewrite IH.
Qed.

Lemma filter_ne_middle {A} `{EqDecision A} (a b : list A) (r : A) :
  NoDup (a ++ r :: b) → filter (λ x, x ≠ r) (a ++ r :: b) = a ++ b.
Proof.
  intros Hnd. apply NoDup_app in Hnd as (_ & Hab & Hb%NoDup_cons).
  rewrite filter_app, filter_cons_False by (by intros ?).
  rewrite !filter_ne_absent; [done|tauto|].
  intros Hx. apply (Hab r Hx). by left.
Qed.

Lemma accurate_position (s : state) (r : loc) (it : item) :
  r ∈ _items s →
  (∀ i, index it = Some i → at_index (_items s) i = Some r) →
  at_index (_items s) (cached s r it) = Some r.
Proof.
  intros Hr Hi. unfold cached. destruct (index it) as [i|]; [by apply Hi|].
  pose proof (findIndex_from_found r (_items s) 0 Hr) as H.
  by rewrite Z.sub_0_r in H.
Qed.

(** X2.  moveToStart(key), for a record of the sequence that is not marked
    as moved and whose cached index is unset or is its position, puts the
    record first and keeps the other records in their order; the mapping and
    the count stay.  A record that is first already stays where it is. *)
Theorem moveToStart_moves_to_front {inherited : string → bool}
    (s : state) (k : value) (r : loc) (it : item) :
  NoDup (_items s) → r ∈ _items s →
  _keyMap s !! ToString k = Some r → heap s !! r = Some it → _moved it = false →
  (∀ i, index it = Some i → at_index (_items s) i = Some r) →
  let s' := exec (moveToStart inherited k) s in
  result (moveToStart inherited k) s = Normal (wrap VNull) ∧
  _items s' = r :: filter (λ x, x ≠ r) (_items s) ∧
  length (_items s') = length (_items s) ∧
  _keyMap s' = _keyMap s ∧ sink s' = sink s.
Proof.
  intros Hnd Hr Hk Hh Hm Hi s'. subst s'. unfold exec, result.
  rewrite (moveToStart_eq (inherited:=inherited) s k r it Hk Hh), Hm. simpl.
  pose proof (accurate_position s r it Hr Hi) as Hpos.
  apply at_index_split in Hpos as (a & b & Hl & Hc).
  assert (Hitems : (if 0 <? cached s r it
                    then splice 0 0 [r] (splice (cached s r it) 1 [] (_items s))
                    else _items s) = r :: filter (λ x, x ≠ r) (_items s)).
  { rewrite Hl in Hnd. rewrite Hl, (filter_ne_middle a b r Hnd), Hc.
    destruct (Z.ltb_spec 0 (Z.of_nat (length a))) as [Hlt|Hge].
    - rewrite splice_delete_app. by rewrite (splice_insert_at [] (a ++ b)).
    - destruct a; [done|simpl in Hge; lia]. }
  destruct (0 <? cached s r it); simpl; rewrite <- Hitems; split_and!; try done.
  rewrite Hitems, Hl in *. rewrite (filter_ne_middle a b r Hnd).
  rewrite !length_app. simpl. rewrite length_app. lia.
Qed.

Lemma moveToStart_moves_to_front_witness :
  _items (exec (moveToStart Object_prototype (VStr "c")) abc_source) = [2; 0; 1]%nat.
Proof.
  destruct (moveToStart_moves_to_front (inherited:=Object_prototype) abc_source (VStr "c") 2%nat
              {| key := VStr "c"; data := record_of "c" 2; index := None; _moved := false |})
    as (_ & H & _).
  - apply (bij_NoDup _ bijection_abc_source).
  - vm_compute. right. right. left.
  - by vm_compute.
  - by vm_compute.
  - done.
  - intros i Hi. done.
  - rewrite H. by vm_compute.
Defined.

(** X3.  moveToEnd(key), under the same conditions, puts the record last
    and keeps the other records in their order; the mapping and the count
    stay.  A record that is last already stays where it is. *)
Theorem moveToEnd_moves_to_back {inherited : string → bool}
    (s : state) (k : value) (r : loc) (it : item) :
  NoDup (_items s) → r ∈ _items s →
  _keyMap s !! ToString k = Some r → heap s !! r = Some it → _moved it = false →
  (∀ i, index it = Some i → at_index (_items s) i = Some r) →
  let s' := exec (moveToEnd inherited k) s in
  result (moveToEnd inherited k) s = Normal (wrap VNull) ∧
  _items s' = filter (λ x, x ≠ r) (_items s) ++ [r] ∧
  length (_items s') = length (_items s) ∧
  _keyMap s' = _keyMap s ∧ sink s' = sink s.
Proof.
  intros Hnd Hr Hk Hh Hm Hi s'. subst s'. unfold exec, result.
  rewrite (moveToEnd_eq (inherited:=inherited) s k r it Hk Hh), Hm. simpl.
  pose proof (accurate_position s r it Hr Hi) as Hpos.
  apply at_index_split in Hpos as (a & b & Hl & Hc).
  assert (Hitems : (if cached s r it <? Z.of_nat (length (_items s)) - 1
                    then splice (cached s r it) 1 [] (_items s) ++ [r]
                    else _items s) = filter (λ x, x ≠ r) (_items s) ++ [r]).
  { rewrite Hl in Hnd. rewrite Hl, (filter_ne_middle a b r Hnd), Hc.
    destruct (Z.ltb_spec (Z.of_nat (length a)) (Z.of_nat (length (a ++ r :: b)) - 1))
      as [Hlt|Hge].
    - by rewrite splice_delete_app.
    - rewrite length_app in Hge. simpl in Hge.
      destruct b; [|simpl in Hge; lia]. by rewrite app_nil_r. }
  destruct (cached s r it <? _); simpl; rewrite <- Hitems; split_and!; try done.
  rewrite Hitems, Hl in *. rewrite (filter_ne_middle a b r Hnd).
  rewrite !length_app. simpl. lia.
Qed.

Lemma moveToEnd_moves_to_back_witness :
  _items (exec (moveToEnd Object_prototype (VStr "a")) abc_source) = [1; 2; 0]%nat.
Proof.
  destruct (moveToEnd_moves_to_back (inherited:=Object_prototype) abc_source (VStr "a") 0%nat
              {| key := VStr "a"; data := record_of "a" 3; index := None; _moved := false |})
    as (_ & H & _).
  - apply (bij_NoDup _ bijection_abc_source).
  - vm_compute. left.
  - by vm_compute.
  - by vm_compute.
  - done.
  - intros i Hi. done.
  - rewrite H. by vm_compute.
Defined.

(** ** The moved marker *)

(** X4.  A move of a record that is marked as moved splices nothing: the
    sequence, the mapping and the sink stay as they are, whatever indices are
    given or cached, and the marker is removed, so that the next move of the
    record is carried out. *)
Theorem marked_record_is_not_spliced {inherited : string → bool}
    (s : state) (k p : value) (ci pi : Z) (r : loc) (it : item) :
  _keyMap s !! ToString k = Some r → heap s !! r = Some it → _moved it = true →
  (let s' := exec (moveToStart inherited k) s in
   _items s' = _items s ∧ _keyMap s' = _keyMap s ∧ sink s' = sink s ∧
   _moved <$> heap s' !! r = Some false) ∧
  (let s' := exec (moveToEnd inherited k) s in
   _items s' = _items s ∧ _keyMap s' = _keyMap s ∧ sink s' = sink s ∧
   _moved <$> heap s' !! r = Some false) ∧
  (let s' := exec (moveAfter inherited k p ci pi) s in
   _items s' = _items s ∧ _keyMap s' = _keyMap s ∧ sink s' = sink s ∧
   heap s' !! r = Some (with_moved false it)).
Proof.
  intros Hk Hh Hm. unfold exec.
  rewrite (moveToStart_eq (inherited:=inherited) s k r it Hk Hh),
      (moveToEnd_eq (inherited:=inherited) s k r it Hk Hh),
    (moveAfter_eq (inherited:=inherited) s k p ci pi r it Hk Hh), Hm. simpl.
  rewrite !(lookup_insert_heap _ _ it) by done. done.
Qed.

Lemma marked_record_is_not_spliced_witness :
  let s := exec (update 2%nat (with_moved true)) abc_source in
  _items (exec (moveToStart Object_prototype (VStr "c")) s) = _items s ∧
  _items (exec (moveToStart Object_prototype (VStr "c"))
            (exec (moveToStart Object_prototype (VStr "c")) s))
  = [2; 0; 1]%nat.
Proof.
  split.
  - destruct (marked_record_is_not_spliced (inherited:=Object_prototype)
                (exec (update 2%nat (with_moved true)) abc_source) (VStr "c") VNull 0 0 2%nat
                {| key := VStr "c"; data := record_of "c" 2; index := None; _moved := true |})
      as ((H & _) & _); [by vm_compute..|].
    exact H.
  - by vm_compute.
Defined.

(** ** insertAtEnd and remove *)

(** X5.  insertAtEnd(key, data) resolves to the new item, whose key is the
    given key or, when that is falsy, data[keyProperty].  Afterwards the key
    is contained, get of it and getAt of the old count give the payload, the
    count has grown by one, and the records that were there are at the
    positions they had. *)
Theorem insertAtEnd_then_lookup {inherited : string → bool}
    (s : state) (k : value) (d : object) :
  let k' := if truthy k then k else get_prop d (_keyProperty s) in
  let s' := exec (insertAtEnd k d) s in
  let count := Z.of_nat (length (_items s)) in
  result (insertAtEnd k d) s = Normal (wrap (length (heap s))) ∧
  heap s' !! length (heap s)
  = Some {| key := k'; data := d; index := None; _moved := false |} ∧
  result (containsKey inherited k') s' = Normal true ∧
  result (get k') s' = Normal (Some d) ∧
  result (getAt count) s' = Normal (Some d) ∧
  result getCount s' = Normal (wrap (count + 1)) ∧
  (∀ i x, _items s !! i = Some x → _items s' !! i = Some x).
Proof.
  intros k' s' count. subst s' count. unfold exec, result.
  rewrite insertAtEnd_eq. fold (or_else k (get_prop d (_keyProperty s))).
  change (if truthy k then k else get_prop d (_keyProperty s))
    with (or_else k (get_prop d (_keyProperty s))) in k'.
  fold k'. simpl.
  assert (Hnew : (heap s ++ [{| key := k'; data := d; index := None; _moved := false |}])
                 !! length (heap s)
                 = Some {| key := k'; data := d; index := None; _moved := false |})
    by by apply list_lookup_middle.
  split_and!.
  - done.
  - done.
  - unfold containsKey, gets. simpl. rewrite lookup_insert_eq.
    by rewrite bool_decide_eq_true_2.
  - unfold get. unfold_m. rewrite lookup_insert_eq. simpl. by rewrite Hnew.
  - unfold getAt. unfold_m.
    rewrite (at_index_app_length (_items s) [] (length (heap s))). simpl.
    by rewrite Hnew.
  - unfold getCount. unfold_m. rewrite length_app. simpl. do 2 f_equal. lia.
  - intros i x Hi. by apply lookup_app_l_Some.
Qed.

(** X6.  In a store whose references are valid, insertAtEnd of a key that is
    new, followed by remove of that key, gives back the sequence and the
    mapping as they were. *)
Theorem insertAtEnd_then_remove (s : state) (k : value) (d : object) :
  closed s →
  let k' := if truthy k then k else get_prop d (_keyProperty s) in
  _keyMap s !! ToString k' = None →
  let s' := exec (remove k') (exec (insertAtEnd k d) s) in
  result (remove k') (exec (insertAtEnd k d) s) = Normal (wrap VNull) ∧
  _items s' = _items s ∧ _keyMap s' = _keyMap s.
Proof.
  intros [Hcl _] k' Hk s'.
  change (if truthy k then k else get_prop d (_keyProperty s))
    with (or_else k (get_prop d (_keyProperty s))) in k'.
  assert (Hfresh : length (heap s) ∉ _items s).
  { intros Hin. specialize (Hcl _ Hin). lia. }
  assert (Hrem : remove k' (exec (insertAtEnd k d) s)
                 = (Normal (wrap VNull),
                    set_keyMap (_keyMap s) (set_items (_items s) (exec (insertAtEnd k d) s)))).
  { unfold exec. rewrite insertAtEnd_eq. fold k'. simpl. set (s1 := set_keyMap _ _).
    assert (Hk1 : _keyMap s1 !! ToString k' = Some (length (heap s)))
      by (subst s1; simpl; apply lookup_insert_eq).
    assert (Hh1 : heap s1 !! length (heap s)
                  = Some {| key := k'; data := d; index := None; _moved := false |})
      by (subst s1; simpl; by apply list_lookup_middle).
    rewrite (remove_eq s1 k' _ _ Hk1 Hh1).
    unfold cached. subst s1. simpl.
    rewrite findIndex_from_app, Z.add_0_l by done.
    destruct (Z.leb_spec 0 (Z.of_nat (length (_items s)))); [|lia].
    rewrite splice_delete_app, app_nil_r. by rewrite delete_insert_id. }
  subst s'.
  change (exec (remove k') (exec (insertAtEnd k d) s))
    with (snd (remove k' (exec (insertAtEnd k d) s))).
  change (result (remove k') (exec (insertAtEnd k d) s))
    with (fst (remove k' (exec (insertAtEnd k d) s))).
  by rewrite Hrem.
Qed.

Lemma insertAtEnd_then_remove_witness :
  _items (exec (remove (VStr "d")) (exec (insertAtEnd (VStr "d") (record_of "d" 0)) abc_source))
  = _items abc_source.
Proof.
  destruct (insertAtEnd_then_remove abc_source (VStr "d") (record_of "d" 0))
    as (_ & H & _).
  - split.
    + intros r Hr. destruct (bijection_valid _ _ bijection_abc_source Hr) as [it Hit].
      by apply lookup_lt_Some in Hit.
    + intros j r Hj.
      destruct (bij_keyMap _ bijection_abc_source _ _ Hj) as (_ & it & Hit & _).
      by apply lookup_lt_Some in Hit.
  - by vm_compute.
  - exact H.
Defined.

(** X7.  In a store whose mapping and sequence are in bijection, remove(key)
    of the key of a record that has no cached index, or the right one, takes
    exactly that record out of the sequence, the others keeping their order,
    and the key out of the mapping; the count goes down by one and the
    bijection is kept.  The key is contained no more, unless it is also the
    name of a member inherited from Object.prototype, which containsKey then
    finds. *)
Theorem remove_takes_the_record_out {inherited : string → bool}
    (s : state) (k : value) (r : loc) :
  bijection s → cache_accurate s k → _keyMap s !! ToString k = Some r →
  let s' := exec (remove k) s in
  result (remove k) s = Normal (wrap VNull) ∧
  _items s' = filter (λ x, x ≠ r) (_items s) ∧
  _keyMap s' = delete (ToString k) (_keyMap s) ∧
  Z.of_nat (length (_items s')) = Z.of_nat (length (_items s)) - 1 ∧
  result (containsKey inherited k) s' = Normal (inherited (ToString k)) ∧
  bijection s'.
Proof.
  intros Hb Hc Hk s'.
  assert (Hb' : bijection s') by by apply bijection_remove.
  subst s'. unfold exec, result in *.
  destruct (bij_keyMap s Hb _ _ Hk) as (Hr & it & Hh & _).
  rewrite (remove_eq s k r it Hk Hh) in *. simpl in *.
  pose proof (cached_position s k r it Hc Hk Hh Hr) as Hpos.
  apply at_index_split in Hpos as (a & b & Hl & Hi).
  destruct (Z.leb_spec 0 (cached s r it)); [|lia]. simpl in *.
  pose proof (bij_NoDup s Hb) as Hnd. rewrite Hl in Hnd.
  rewrite Hl, Hi, splice_delete_app, (filter_ne_middle a b r Hnd).
  split_and!; try done.
  - rewrite !length_app. simpl. lia.
  - unfold containsKey, gets. simpl. rewrite lookup_delete_eq.
    rewrite bool_decide_eq_false_2; [done|]. by intros [? ?].
  - by rewrite Hl, Hi, splice_delete_app in Hb'.
Qed.

Lemma remove_takes_the_record_out_witness :
  _items (exec (remove (VStr "b")) abc_source) = [0; 2]%nat.
Proof.
  destruct (remove_takes_the_record_out (inherited:=Object_prototype) abc_source
              (VStr "b") 1%nat) as (_ & H & _).
  - exact bijection_abc_source.
  - intros r it i Hk Hh Hi. vm_compute in Hk. injection Hk as <-.
    vm_compute in Hh. injection Hh as <-. done.
  - by vm_compute.
  - rewrite H. by vm_compute.
Defined.

(** X8.  insertAtEnd does not check for a key that is contained already: the
    new record takes the key's place in the mapping (get gives the new
    payload) while the record that had the key stays in the sequence, so the
    mapping and the sequence are no longer in bijection. *)
Theorem insertAtEnd_of_contained_key (s : state) (k : value) (d : object) (r : loc) :
  bijection s →
  let k' := if truthy k then k else get_prop d (_keyProperty s) in
  _keyMap s !! ToString k' = Some r →
  let s' := exec (insertAtEnd k d) s in
  r ∈ _items s' ∧
  _keyMap s' !! ToString k' = Some (length (heap s)) ∧
  length (heap s) ≠ r ∧
  result (get k') s' = Normal (Some d) ∧
  ¬ bijection s'.
Proof.
  intros Hb k' Hk s'.
  destruct (bij_keyMap s Hb _ _ Hk) as (Hr & it & Hh & Hkey).
  assert (Hne : length (heap s) ≠ r) by (apply lookup_lt_Some in Hh; lia).
  subst s'. unfold exec, result in *. rewrite insertAtEnd_eq in *.
  change (if truthy k then k else get_prop d (_keyProperty s))
    with (or_else k (get_prop d (_keyProperty s))) in k'.
  fold k'. simpl in *.
  split_and!; [apply elem_of_app; by left|apply lookup_insert_eq|done| |].
  { unfold get. unfold_m. rewrite lookup_insert_eq. simpl.
    by rewrite list_lookup_middle. }
  intros [_ Hit _]. simpl in Hit.
  destruct (Hit r) as (it' & Hh' & Hk'); [apply elem_of_app; by left|].
  rewrite lookup_app_l in Hh' by (by apply lookup_lt_Some in Hh).
  rewrite Hh in Hh'. injection Hh' as <-.
  rewrite Hkey, lookup_insert_eq in Hk'. by injection Hk'.
Qed.

Lemma insertAtEnd_of_contained_key_witness :
  ¬ bijection (exec (insertAtEnd (VStr "b") (record_of "b" 7)) abc_source).
Proof.
  destruct (insertAtEnd_of_contained_key abc_source (VStr "b") (record_of "b" 7) 1%nat)
    as (_ & _ & _ & _ & H).
  - exact bijection_abc_source.
  - by vm_compute.
  - exact H.
Defined.

(** ** The accessors *)

Lemma closed_bijection (s : state) : bijection s → closed s.
Proof.
  intros Hb. split.
  - intros r Hr. destruct (bij_items s Hb r Hr) as (it & Hit & _).
    by apply lookup_lt_Some in Hit.
  - intros k r Hk. destruct (bij_keyMap s Hb k r Hk) as (_ & it & Hit & _).
    by apply lookup_lt_Some in Hit.
Qed.

Lemma records_lookup (h : list item) (l : list loc) (i : nat) :
  (∀ r, r ∈ l → (r < length h)%nat) →
  omap (λ r, h !! r) l !! i = l !! i ≫= (λ r, h !! r).
Proof.
  revert i. induction l as [|r l IH]; intros i Hv; [done|].
  destruct (lookup_lt_is_Some_2 h r) as [it Hit]; [apply Hv; by left|].
  simpl. rewrite Hit. destruct i as [|i]; simpl; [done|].
  apply IH. intros x Hx. apply Hv. by right.
Qed.

Lemma getAt_records (s : state) (i : nat) :
  closed s → getAt (Z.of_nat i) s = (Normal (data <$> records s !! i), s).
Proof.
  intros [Hcl _]. unfold getAt, records. unfold_m.
  rewrite at_index_lookup, records_lookup by done.
  destruct (_items s !! i) as [r|] eqn:Hr; [|done]. simpl.
  destruct (lookup_lt_is_Some_2 (heap s) r) as [it Hit].
  { apply Hcl, list_elem_of_lookup. by exists i. }
  by rewrite Hit.
Qed.

Lemma get_mapping (s : state) (k : value) :
  closed s → get k s = (Normal (data <$> mapping s !! ToString k), s).
Proof.
  intros [_ Hcl]. unfold get, mapping. unfold_m. rewrite lookup_omap.
  destruct (_keyMap s !! ToString k) as [r|] eqn:Hr; [|done]. simpl.
  destruct (lookup_lt_is_Some_2 (heap s) r) as [it Hit]; [by apply (Hcl _ _ Hr)|].
  by rewrite Hit.
Qed.

Lemma containsKey_mapping {inherited : string → bool} (s : state) (k : value) :
  closed s →
  containsKey inherited k s
  = (Normal (bool_decide (is_Some (mapping s !! ToString k)) || inherited (ToString k)), s).
Proof.
  intros [_ Hcl]. unfold containsKey, mapping, gets. rewrite lookup_omap.
  do 3 f_equal. apply bool_decide_ext.
  destruct (_keyMap s !! ToString k) as [r|] eqn:Hr; simpl.
  - destruct (lookup_lt_is_Some_2 (heap s) r) as [it Hit]; [by apply (Hcl _ _ Hr)|].
    rewrite Hit. split; intros _; by eexists.
  - done.
Qed.

(** X9.  In a store whose references are valid, getAt(idx) never throws and
    leaves the store as it is; it gives undefined exactly when idx is negative
    or not below the count, and otherwise the payload of the record at that
    position. *)
Theorem getAt_in_and_out_of_range (s : state) (idx : Z) :
  closed s →
  let count := Z.of_nat (length (_items s)) in
  exec (getAt idx) s = s ∧
  (result (getAt idx) s = Normal None ↔ ¬ (0 <= idx < count)) ∧
  (0 <= idx < count →
   ∃ r it, _items s !! Z.to_nat idx = Some r ∧ heap s !! r = Some it ∧
           result (getAt idx) s = Normal (Some (data it))).
Proof.
  intros Hcl count. subst count. unfold exec, result.
  destruct (Z.ltb_spec idx 0) as [Hneg|Hpos].
  - assert (H : getAt idx s = (Normal None, s)).
    { unfold getAt, at_index. unfold_m. destruct (Z.ltb_spec idx 0); [done|lia]. }
    rewrite H. simpl. split_and!; [done|split; [lia|done]|lia].
  - assert (H : getAt idx s = (Normal (data <$> records s !! Z.to_nat idx), s)).
    { replace idx with (Z.of_nat (Z.to_nat idx)) at 1 by lia.
      by apply getAt_records. }
    rewrite H. simpl. unfold records. rewrite records_lookup by apply Hcl.
    destruct (_items s !! Z.to_nat idx) as [r|] eqn:Hr; simpl.
    + pose proof (lookup_lt_Some _ _ _ Hr) as Hlt.
      destruct (lookup_lt_is_Some_2 (heap s) r) as [it Hit].
      { apply Hcl, list_elem_of_lookup. by eexists. }
      rewrite Hit. simpl. split_and!; [done| |].
      * split; [done|]. intros Hout. exfalso. apply Hout. lia.
      * intros _. by exists r, it.
    + apply lookup_ge_None in Hr. split_and!; [done| |].
      * split; [|done]. intros _. lia.
      * intros Hin. lia.
Qed.

Lemma getAt_in_and_out_of_range_witness :
  result (getAt 3) abc_source = Normal None ∧
  result (getAt (-1)) abc_source = Normal None.
Proof.
  pose proof (closed_bijection _ bijection_abc_source) as Hcl.
  split.
  - apply (getAt_in_and_out_of_range abc_source 3 Hcl). vm_compute. intros [_ H]. done.
  - apply (getAt_in_and_out_of_range abc_source (-1) Hcl). lia.
Defined.

(** X10.  In a store whose mapping and sequence are in bijection the
    accessors agree: the payload getAt gives for a position is the payload get
    gives for the key of the record there, and that key is contained; and a
    key that is contained is the key of a record at some position, with the
    same payload, or else the name of a member inherited from
    Object.prototype, for which get gives undefined. *)
Theorem accessors_agree (inherited : string → bool) (s : state) :
  bijection s →
  (∀ (i : nat) r it,
     _items s !! i = Some r → heap s !! r = Some it →
     result (getAt (Z.of_nat i)) s = Normal (Some (data it)) ∧
     result (get (key it)) s = Normal (Some (data it)) ∧
     result (containsKey inherited (key it)) s = Normal true) ∧
  (∀ k, result (containsKey inherited k) s = Normal true →
        (∃ (i : nat) d, result (getAt (Z.of_nat i)) s = Normal (Some d) ∧
                        result (get k) s = Normal (Some d)) ∨
        (inherited (ToString k) = true ∧ result (get k) s = Normal None)).
Proof.
  intros Hb. pose proof (closed_bijection s Hb) as Hcl. split.
  - intros i r it Hi Hh.
    destruct (bij_items s Hb r) as (it' & Hh' & Hk'); [apply list_elem_of_lookup; by exists i|].
    rewrite Hh in Hh'. injection Hh' as <-.
    unfold result. split_and!.
    + unfold getAt. unfold_m. by rewrite at_index_lookup, Hi; simpl; rewrite Hh.
    + unfold get. unfold_m. by rewrite Hk'; simpl; rewrite Hh.
    + unfold containsKey, gets. by rewrite Hk'.
  - intros k Hk. unfold result in Hk. rewrite containsKey_eq in Hk. simpl in Hk.
    injection Hk as Hk.
    destruct (_keyMap s !! ToString k) as [r|] eqn:Hr.
    + left. destruct (bij_keyMap s Hb _ _ Hr) as (Hin & it & Hh & _).
      apply list_elem_of_lookup in Hin as [i Hi].
      exists i, (data it). unfold result. split.
      * unfold getAt. unfold_m. by rewrite at_index_lookup, Hi; simpl; rewrite Hh.
      * unfold get. unfold_m. by rewrite Hr; simpl; rewrite Hh.
    + right. split.
      * rewrite bool_decide_eq_false_2 in Hk; [done|]. by intros [? ?].
      * unfold result, get. unfold_m. by rewrite Hr.
Qed.

Lemma accessors_agree_witness :
  result (getAt 1) abc_source = Normal (Some (record_of "b" 1)) ∧
  result (get (VStr "b")) abc_source = Normal (Some (record_of "b" 1)).
Proof.
  destruct (accessors_agree Object_prototype abc_source bijection_abc_source) as [H _].
  destruct (H 1%nat 1%nat
              {| key := VStr "b"; data := record_of "b" 1; index := None; _moved := false |})
    as (H1 & H2 & _); [by vm_compute..|].
  by split.
Defined.

(** ** _findIndex *)

Lemma findIndex_from_first (r : loc) (l : list loc) (i : Z) :
  r ∈ l →
  i <= _findIndex_from i r l < i + Z.of_nat (length l) ∧
  ∀ j, i <= j < _findIndex_from i r l → at_index l (j - i) ≠ Some r.
Proof.
  revert i. induction l as [|x l IH]; intros i Hr; [by apply elem_of_nil in Hr|].
  simpl. destruct (decide (r = x)) as [->|Hne].
  - split; [simpl length; lia|]. intros j Hj. lia.
  - apply elem_of_cons in Hr as [?|Hr]; [done|].
    destruct (IH (i + 1) Hr) as [Hrange Hfirst]. split; [simpl length; lia|].
    intros j Hj. destruct (decide (j = i)) as [->|Hji].
    + rewrite Z.sub_diag. unfold at_index. simpl. congruence.
    + specialize (Hfirst j ltac:(lia)).
      intros H. apply Hfirst.
      unfold at_index in *. destruct (Z.ltb_spec (j - i) 0); [done|].
      destruct (Z.ltb_spec (j - (i + 1)) 0); [lia|].
      replace (Z.to_nat (j - i)) with (S (Z.to_nat (j - (i + 1)))) in H by lia.
      done.
Qed.

(** X11.  _findIndex(item) leaves the store as it is and returns -1 exactly
    when the item is not in the sequence; otherwise it returns the first
    position the item is at, which lies in [0, count). *)
Theorem findIndex_first_position (s : state) (r : loc) :
  ∃ i, _findIndex r s = (Normal i, s) ∧
       (i = -1 ↔ r ∉ _items s) ∧
       (r ∈ _items s →
        0 <= i < Z.of_nat (length (_items s)) ∧
        at_index (_items s) i = Some r ∧
        ∀ j, 0 <= j < i → at_index (_items s) j ≠ Some r).
Proof.
  exists (_findIndex_from 0 r (_items s)). split; [done|].
  destruct (decide (r ∈ _items s)) as [Hin|Hout].
  - destruct (findIndex_from_first r (_items s) 0 Hin) as [Hrange Hfirst].
    pose proof (findIndex_from_found r (_items s) 0 Hin) as Hat.
    rewrite Z.sub_0_r in Hat.
    split; [split; [lia|done]|]. intros _. split_and!; [lia|lia|done|].
    intros j Hj. specialize (Hfirst j Hj). by rewrite Z.sub_0_r in Hfirst.
  - rewrite findIndex_from_absent by done. split; [done|]. intros Hin. done.
Qed.

(** ** What _initItems builds *)

Lemma records_push_fold (kf : object → value) (df : object → object)
    (l : list object) (s : state) :
  closed s →
  let s' := foldl (λ s' o, push_item (kf o) (df o) s') s l in
  closed s' ∧
  records s' = records s
               ++ ((λ o, {| key := kf o; data := df o; index := None; _moved := false |}) <$> l) ∧
  mapping s' = foldl (λ m o, <[ToString (kf o) :=
                                 {| key := kf o; data := df o; index := None;
                                    _moved := false |}]> m) (mapping s) l.
Proof.
  revert s. induction l as [|o l IH]; intros s Hcl; simpl.
  - by rewrite app_nil_r.
  - destruct (IH (push_item (kf o) (df o) s)) as (Hcl' & Hr & Hm);
      [by apply closed_push_item|].
    split_and!; [done| |].
    + by rewrite Hr, records_push_item, <- app_assoc.
    + by rewrite Hm, mapping_push_item.
Qed.

Lemma foldl_insert_lookup {A B} (f : A → string) (g : A → B)
    (l : list A) (m : gmap string B) (k : string) :
  foldl (λ m x, <[f x := g x]> m) m l !! k
  = match last (filter (λ x, f x = k) l) with
    | Some x => Some (g x)
    | None => m !! k
    end.
Proof.
  revert m. induction l as [|x l IH]; intros m; simpl; [done|].
  rewrite IH, filter_cons. destruct (decide (f x = k)) as [<-|Hne].
  - destruct (filter (λ x0, f x0 = f x) l) as [|y fl] eqn:E; simpl.
    + by rewrite lookup_insert_eq.
    + destruct (last (y :: fl)) eqn:El; [done|]. by apply last_None in El.
  - destruct (last (filter (λ x0, f x0 = k) l)); [done|].
    by rewrite lookup_insert_ne.
Qed.

Lemma initItems_state (B : object → object) (d : input) (pr : bool) (s : state) :
  let s' := exec (_initItems B d pr) s in
  closed s' ∧
  records s' = new_item B s <$> input_list d ∧
  (∀ k, mapping s' !! k
        = new_item B s <$> last (filter (λ o, ToString (item_key s o) = k) (input_list d))).
Proof.
  intros s'.
  assert (Hs : closed (push_all B (input_list d) (set_keyMap ∅ (set_items [] s))) ∧
               records (push_all B (input_list d) (set_keyMap ∅ (set_items [] s)))
               = new_item B s <$> input_list d ∧
               (∀ k, mapping (push_all B (input_list d) (set_keyMap ∅ (set_items [] s))) !! k
                     = new_item B s <$> last (filter (λ o, ToString (item_key s o) = k)
                                                (input_list d)))).
  { unfold push_all.
    destruct (records_push_fold (item_key (set_keyMap ∅ (set_items [] s)))
                (item_data B (set_keyMap ∅ (set_items [] s))) (input_list d)
                (set_keyMap ∅ (set_items [] s)) (closed_empty s)) as (Hcl & Hr & Hm).
    split_and!; [done|done|].
    intros k. rewrite Hm.
    rewrite (foldl_insert_lookup (λ o, ToString (item_key (set_keyMap ∅ (set_items [] s)) o))
               (λ o, {| key := item_key (set_keyMap ∅ (set_items [] s)) o;
                        data := item_data B (set_keyMap ∅ (set_items [] s)) o;
                        index := None; _moved := false |})).
    unfold mapping at 1. simpl. rewrite omap_empty, lookup_empty.
    by destruct (last _). }
  subst s'. unfold exec. rewrite initItems_eq. simpl.
  destruct pr; [done|]. by destruct (_notificationHandler s).
Qed.

(** X12.  _initItems(data), at construction and in setData, keeps the order
    of the input: the records of the store are the input objects in their
    order, each with its key read from keyProperty, its payload the object or,
    with binding, what Binding.as makes of it, no index and no marker.  The
    count is the length of the input and getAt(i) is the payload of the i-th
    input object.  The sink gets one reload call when preventReload is not
    set and a handler is installed, and nothing otherwise. *)
Theorem initItems_keeps_input_order
    (B : object → object) (d : input) (pr : bool) (s : state) :
  let s' := exec (_initItems B d pr) s in
  records s' = new_item B s <$> input_list d ∧
  result getCount s' = Normal (wrap (Z.of_nat (length (input_list d)))) ∧
  (∀ i : nat, result (getAt (Z.of_nat i)) s'
              = Normal (item_data B s <$> input_list d !! i)) ∧
  sink s' = sink s ++ (if pr then []
                       else match _notificationHandler s with
                            | Some _ => [reload]
                            | None => []
                            end).
Proof.
  intros s'. destruct (initItems_state B d pr s) as (Hcl & Hr & _). fold s' in Hcl, Hr.
  split_and!.
  - done.
  - unfold result, getCount. unfold_m. do 3 f_equal.
    assert (Hlen : length (records s') = length (_items s')).
    { unfold records. clear Hr. destruct Hcl as [Hcl _].
      induction (_items s') as [|r l IH]; [done|]. simpl.
      destruct (lookup_lt_is_Some_2 (heap s') r) as [it ->]; [apply Hcl; by left|].
      simpl. f_equal. apply IH. intros x Hx. apply Hcl. by right. }
    by rewrite <- Hlen, Hr, length_fmap.
  - intros i. unfold result. rewrite (getAt_records s' i Hcl). simpl.
    rewrite Hr, list_lookup_fmap. by destruct (input_list d !! i).
  - subst s'. unfold exec. rewrite initItems_eq. simpl.
    destruct pr; simpl; [by rewrite sink_push_all, app_nil_r|].
    destruct (_notificationHandler s); simpl; rewrite sink_push_all; [done|].
    by rewrite app_nil_r.
Qed.

(** X13.  _initItems does not check for keys that occur twice: in the
    mapping a key stands for the last input object that has it, so get(key)
    gives that object's payload; and a key is contained exactly when some
    input object has it or it is the name of a member inherited from
    Object.prototype.  Keys are compared as property names; the numbers among
    them are integers that print in decimal, and no input object has the key
    __proto__, which some engines do not store as a property. *)
Theorem initItems_last_key_wins (inherited : string → bool)
    (B : object → object) (d : input) (pr : bool) (s : state) (k : value) :
  safe k →
  Forall (λ o, safe (item_key s o) ∧ ToString (item_key s o) ≠ "__proto__")
         (input_list d) →
  let s' := exec (_initItems B d pr) s in
  let with_key := filter (λ o, ToString (item_key s o) = ToString k) (input_list d) in
  mapping s' !! ToString k = new_item B s <$> last with_key ∧
  result (get k) s' = Normal (item_data B s <$> last with_key) ∧
  (result (containsKey inherited k) s' = Normal true
   ↔ (∃ o, o ∈ input_list d ∧ ToString (item_key s o) = ToString k)
     ∨ inherited (ToString k) = true).
Proof.
  intros _ _ s' with_key. destruct (initItems_state B d pr s) as (Hcl & _ & Hm).
  fold s' in Hcl, Hm. specialize (Hm (ToString k)). fold with_key in Hm.
  split_and!.
  - done.
  - unfold result. rewrite (get_mapping s' k Hcl), Hm. simpl. by destruct (last with_key).
  - unfold result. rewrite (containsKey_mapping s' k Hcl), Hm. simpl. split.
    + intros [=H]. apply orb_true_iff in H as [H|H]; [left|by right].
      apply bool_decide_eq_true_1 in H as [it Hit].
      destruct (last with_key) as [o|] eqn:Ho; [|done].
      exists o. apply last_Some_elem_of in Ho.
      by apply list_elem_of_filter in Ho as [? ?].
    + intros [(o & Ho & Hk)|Hi]; f_equal; apply orb_true_iff; [left|by right].
      apply bool_decide_eq_true_2.
      assert (Hin : o ∈ with_key) by (by apply list_elem_of_filter).
      destruct (last with_key) as [o'|] eqn:Hl; [by eexists|].
      apply last_None in Hl. rewrite Hl in Hin. by apply elem_of_nil in Hin.
Qed.

Lemma initItems_last_key_wins_witness :
  let d := IArray [record_of "a" 1; record_of "b" 2; record_of "a" 3] in
  let s' := exec (_initItems no_binding d true) abc_source in
  result (get (VStr "a")) s' = Normal (Some (record_of "a" 3)) ∧
  result (containsKey Object_prototype (VStr "valueOf")) s' = Normal true ∧
  ¬ result (containsKey Object_prototype (VStr "c")) s' = Normal true.
Proof.
  intros d s'.
  assert (Hd : Forall (λ o, safe (item_key abc_source o) ∧
                            ToString (item_key abc_source o) ≠ "__proto__")
                      (input_list d)) by by repeat constructor.
  split_and!.
  - destruct (initItems_last_key_wins Object_prototype no_binding d true abc_source
                (VStr "a") I Hd) as (_ & H & _).
    exact H.
  - destruct (initItems_last_key_wins Object_prototype no_binding d true abc_source
                (VStr "valueOf") I Hd) as (_ & _ & H).
    apply H. by right.
  - destruct (initItems_last_key_wins Object_prototype no_binding d true abc_source
                (VStr "c") I Hd) as (_ & _ & H).
    intros [(o & Ho & Hk)|Hi]%H; [|done].
    repeat (apply elem_of_cons in Ho as [->|Ho]; [done|]). by apply elem_of_nil in Ho.
Defined.

(** ** What sort keeps *)

(** X14.  On a store whose mapping and sequence are in bijection, sort
    completes and keeps the bijection, the mapping, the count and the records
    themselves (it permutes them); every key is contained as before and get
    gives the same payload; and the editing flag is afterwards what it was
    before, whether sort opened the batch itself or found it open. *)
Theorem sort_keeps_the_store {inherited : string → bool}
    (aI : state → value → Z) (sortFn : object → object → Z) (s : state) :
  bijection s →
  let s' := exec (sort inherited aI sortFn) s in
  result (sort inherited aI sortFn) s = Normal tt ∧
  bijection s' ∧
  _keyMap s' = _keyMap s ∧
  _items s' ≡ₚ _items s ∧
  length (_items s') = length (_items s) ∧
  _editing s' = _editing s ∧
  (∀ k, result (get k) s' = result (get k) s) ∧
  (∀ k, result (containsKey inherited k) s' = result (containsKey inherited k) s).
Proof.
  intros Hb s'. subst s'. unfold exec, result at 1.
  destruct (sort_effect (inherited:=inherited) aI sortFn s Hb)
      as (s' & -> & Hit & Hkm & Hed & Hc & _ & Hb').
  simpl.
  assert (Hp : _items s' ≡ₚ _items s) by (rewrite Hit; apply array_sort_Permutation).
  split_and!; try done.
  - by rewrite Hp.
  - intros k. unfold result, get. unfold_m. rewrite Hkm.
    destruct (_keyMap s !! ToString k) as [r|]; [|done]. simpl.
    specialize (Hc r).
    destruct (heap s' !! r), (heap s !! r); simpl in *; congruence.
  - intros k. unfold result, containsKey, gets. by rewrite Hkm.
Qed.

Lemma sort_keeps_the_store_witness :
  _keyMap (exec (sort Object_prototype no_hint by_v) abc_source) = _keyMap abc_source ∧
  _editing (exec (sort Object_prototype no_hint by_v) abc_source) = _editing abc_source.
Proof.
  destruct (sort_keeps_the_store (inherited:=Object_prototype) no_hint by_v
              abc_source bijection_abc_source)
    as (_ & _ & H1 & _ & _ & H2 & _).
  by split.
Defined.

Lemma no_new_marker_refl (h : list item) : no_new_marker h h.
Proof. intros x it Hx Hm. by exists it. Qed.

Lemma no_new_marker_trans (h1 h2 h3 : list item) :
  no_new_marker h1 h2 → no_new_marker h2 h3 → no_new_marker h1 h3.
Proof.
  intros H1 H2 x it3 Hx Hm. destruct (H2 x it3 Hx Hm) as (it2 & Hx2 & Hm2).
  by apply (H1 x it2).
Qed.

Lemma no_new_marker_insert (h : list item) (r : loc) (it : item) :
  _moved it = false → no_new_marker h (<[r := it]> h).
Proof.
  intros Hf x it' Hx Hm. destruct (decide (r = x)) as [<-|Hne].
  - apply list_lookup_insert_Some in Hx as [(_ & <- & _)|[? ?]]; congruence.
  - rewrite list_lookup_insert_ne in Hx by done. by exists it'.
Qed.

Lemma sort_step_markers {inherited : string → bool} (aI : state → value → Z)
    (s : state) (i : Z) (r : loc) (it : item) (prev : value) :
  at_index (_items s) i = Some r → heap s !! r = Some it →
  _keyMap s !! ToString (key it) = Some r → prev_is s i prev →
  no_new_marker (heap s) (heap (exec (sort_step inherited aI i) s)).
Proof.
  intros Hi Hh Hk Hprev. unfold exec.
  rewrite (sort_step_eq (inherited:=inherited) aI s i r it prev Hi Hh Hk Hprev). simpl.
  destruct (decide (index it = Some i)); [apply no_new_marker_refl|].
  destruct (truthy prev); simpl; by apply no_new_marker_insert.
Qed.

Lemma sort_loop_markers {inherited : string → bool}
    (aI : state → value → Z) (rest : list loc) :
  ∀ (pre : list loc) (s : state) (prev : value),
    _items s = pre ++ rest → bijection s → prev_is s (Z.of_nat (length pre)) prev →
    no_new_marker (heap s)
      (heap (exec (sort_loop inherited aI (length rest) (Z.of_nat (length pre))) s)).
Proof.
  induction rest as [|r rest IH]; intros pre s prev Hl Hb Hprev.
  - apply no_new_marker_refl.
  - assert (Hi : at_index (_items s) (Z.of_nat (length pre)) = Some r)
      by (rewrite Hl; apply at_index_app_length).
    destruct (bij_items s Hb r) as (it & Hh & Hk); [by eapply at_index_elem_of|].
    pose proof (sort_step_markers (inherited:=inherited) aI s _ r it prev Hi Hh Hk Hprev) as Hm.
    destruct (sort_step_effect (inherited:=inherited) aI s _ r it prev Hi Hh Hk Hprev)
      as (s1 & it' & Hstep & Hit1 & Hkm1 & Hed1 & Hh1 & Hkey & Hdata & Hsink1).
    unfold exec in Hm. rewrite Hstep in Hm. simpl in Hm.
    assert (Hb1 : bijection s1).
    { apply (bijection_transport s); [done|by rewrite Hit1|done|].
      intros x. rewrite Hh1. by apply (insert_keeps_key _ _ it). }
    assert (Hprev1 : prev_is s1 (Z.of_nat (length (pre ++ [r]))) (key it)).
    { unfold prev_is. rewrite length_app. simpl.
      destruct (Z.eqb_spec (Z.of_nat (length pre + 1)) 0); [lia|].
      exists r, it'. split_and!; [| |done].
      - replace (Z.of_nat (length pre + 1) - 1) with (Z.of_nat (length pre)) by lia.
        by rewrite Hit1.
      - rewrite Hh1. by apply (lookup_insert_heap _ _ it). }
    specialize (IH (pre ++ [r]) s1 (key it)).
    unfold exec in *. simpl. unfold bind. rewrite Hstep.
    replace (Z.of_nat (length pre) + 1) with (Z.of_nat (length (pre ++ [r])))
      by (rewrite length_app; simpl; lia).
    apply (no_new_marker_trans _ (heap s1)); [done|].
    apply IH; [by rewrite Hit1, Hl, <- app_assoc|done|done].
Qed.

Lemma sort_unfold {inherited : string → bool}
    (aI : state → value → Z) (sortFn : object → object → Z) (s : state) :
  bijection s →
  let s0 := set_items (array_sort (by_data sortFn (heap s)) (_items s)) s in
  let s1 := if _editing s then s0 else set_editing true s0 in
  let s2 := exec (sort_loop inherited aI (length (_items s1)) 0) s1 in
  bijection s1 ∧
  exec (sort inherited aI sortFn) s = (if _editing s then s2 else set_editing false s2).
Proof.
  intros Hb s0 s1 s2.
  assert (Hp : _items s0 ≡ₚ _items s) by apply array_sort_Permutation.
  assert (Hb1 : bijection s1).
  { subst s1. destruct (_editing s); by apply (bijection_transport s). }
  split; [done|].
  destruct (sort_loop_effect (inherited:=inherited) aI (_items s1) [] s1 VNull)
      as (s' & Hloop & _);
    [done|done|done|].
  change (Z.of_nat (length [])) with 0 in Hloop.
  assert (Hlen : length (_items s) = length (_items s1)).
  { subst s1. destruct (_editing s); simpl; by rewrite array_sort_length. }
  subst s2. unfold exec. rewrite Hloop. simpl.
  unfold sort. unfold bind at 1, gets at 1. unfold bind at 1, gets at 1.
  unfold bind at 1, modify at 1. fold s0. rewrite Hlen.
  subst s1. destruct (_editing s); unfold bind, ret, this_beginEdits, this_endEdits,
    beginEdits, endEdits, modify; by rewrite Hloop.
Qed.

Lemma replay_sublist (h : list item) (l : list loc) (prev : value) (i : Z) :
  ∃ moved, sublist moved l ∧ Forall2 (call_for h) (replay h prev i l) moved.
Proof.
  revert prev i. induction l as [|r l IH]; intros prev i; simpl.
  - exists []. split; constructor.
  - unfold step_event. destruct (h !! r) as [it|] eqn:Hr; simpl.
    + destruct (IH (key it) (i + 1)) as (moved & Hsub & Hall).
      destruct (decide (index it = Some i)); simpl.
      * exists moved. split; [by constructor|done].
      * exists (r :: moved). split; [by constructor|].
        constructor; [|done]. exists it. split; [done|].
        destruct (truthy prev); [right; by eexists|by left].
    + destruct (IH VUndefined (i + 1)) as (moved & Hsub & Hall).
      exists moved. split; [by constructor|done].
Qed.

(** X15.  On a store whose mapping and sequence are in bijection, sort adds
    to the sink moveToStart and moveAfter calls only, at most one for each
    record: the calls are, one for one, for records of the store that are all
    different, each call with the key of its record.  And sort leaves no
    marker behind: a record that is marked as moved afterwards was marked
    before. *)
Theorem sort_calls_and_markers (inherited : string → bool)
    (aI : state → value → Z) (sortFn : object → object → Z) (s : state) :
  bijection s →
  let s' := exec (sort inherited aI sortFn) s in
  (∃ calls moved, sink s' = sink s ++ calls ∧
                  Forall2 (call_for (heap s)) calls moved ∧
                  NoDup moved ∧ (∀ r, r ∈ moved → r ∈ _items s)) ∧
  (∀ x it', heap s' !! x = Some it' → _moved it' = true →
            ∃ it, heap s !! x = Some it ∧ _moved it = true).
Proof.
  intros Hb s'. split.
  - subst s'. unfold exec.
    destruct (sort_effect (inherited:=inherited) aI sortFn s Hb)
      as (s' & -> & Hit & _ & _ & _ & Hsink & Hb').
    simpl.
    destruct (replay_sublist (heap s) (_items s') VNull 0) as (moved & Hsub & Hall).
    exists (replay (heap s) VNull 0 (_items s')), moved. split_and!; [done|done| |].
    + apply (sublist_NoDup _ (_items s')); [apply Hb'|done].
    + intros r Hr. apply (elem_of_sublist _ _ _ Hr) in Hsub.
      by rewrite Hit, array_sort_Permutation in Hsub.
  - destruct (sort_unfold (inherited:=inherited) aI sortFn s Hb) as [Hb1 Hs]. fold s' in Hs.
    set (s1 := if _editing s then _ else _) in *.
    pose proof (sort_loop_markers (inherited:=inherited) aI (_items s1) [] s1 VNull
                  eq_refl Hb1 eq_refl) as Hm.
    change (Z.of_nat (length [])) with 0 in Hm.
    assert (H1 : heap s1 = heap s) by (subst s1; by destruct (_editing s)).
    rewrite H1 in Hm.
    assert (H2 : heap s' = heap (exec (sort_loop inherited aI (length (_items s1)) 0) s1))
      by (rewrite Hs; by destruct (_editing s)).
    by rewrite H2.
Qed.

Lemma sort_calls_and_markers_witness :
  ∃ calls moved,
    sink (exec (sort Object_prototype no_hint by_v) abc_source) = sink abc_source ++ calls ∧
    Forall2 (call_for (heap abc_source)) calls moved ∧
    NoDup moved ∧ (∀ r, r ∈ moved → r ∈ _items abc_source).
Proof.
  destruct (sort_calls_and_markers Object_prototype no_hint by_v abc_source
              bijection_abc_source) as [H _].
  exact H.
Defined.

Lemma Sorted_fmap_inv {A B} (f : A → B) (R : relation B) (l : list A) :
  Sorted R (f <$> l) → Sorted (λ a b, R (f a) (f b)) l.
Proof.
  induction l as [|x l IH]; intros H; [constructor|].
  rewrite fmap_cons in H. apply Sorted_inv in H as [Hl Hx].
  constructor; [by apply IH|].
  destruct l as [|y l]; [constructor|].
  rewrite fmap_cons in Hx. apply HdRel_inv in Hx. by constructor.
Qed.

(** X16.  On a store whose mapping and sequence are in bijection and whose
    payloads are in order already (none compares greater than the next), for
    a comparator that is consistent on these payloads, sort leaves the
    sequence as it is. *)
Theorem sort_of_sorted_store (inherited : string → bool)
    (aI : state → value → Z) (sortFn : object → object → Z) (s : state) :
  bijection s →
  consistent_on (data <$> records s) sortFn →
  Sorted (λ a b, sortFn a b <= 0) (data <$> records s) →
  _items (exec (sort inherited aI sortFn) s) = _items s.
Proof.
  intros Hb _ Hs. unfold exec.
  destruct (sort_effect (inherited:=inherited) aI sortFn s Hb) as (s' & -> & Hit & _). simpl.
  rewrite Hit. apply array_sort_sorted.
  unfold records in Hs.
  rewrite data_records in Hs by (intros r Hr; by apply bijection_valid).
  by apply Sorted_fmap_inv in Hs.
Qed.

Lemma sort_of_sorted_store_witness :
  let s := exec (sort Object_prototype no_hint by_v) abc_source in
  _items (exec (sort Object_prototype no_hint by_v) s) = _items s.
Proof.
  intros s.
  assert (E : data <$> records s = [record_of "b" 1; record_of "c" 2; record_of "a" 3])
    by by vm_compute.
  apply (sort_of_sorted_store Object_prototype).
  - by destruct (sort_effect (inherited:=Object_prototype) no_hint by_v abc_source
                   bijection_abc_source)
      as (s' & Hs & _ & _ & _ & _ & _ & Hb'); subst s; unfold exec; rewrite Hs.
  - apply consistent_on_records. intros x Hx. rewrite E in Hx.
    repeat (apply elem_of_cons in Hx as [->|Hx]; [by eexists _, _|]).
    by apply elem_of_nil in Hx.
  - rewrite E. repeat (constructor; [|try constructor; by vm_compute]). constructor.
Defined.

(** * Properties of the utilities *)

(** ** toURL *)

Lemma split_first_absent (c : ascii) (x : string) :
  occurs c x = false → split_first c x = None.
Proof.
  induction x as [|a x IH]; simpl; [done|].
  intros [Ha Hx]%orb_false_iff. rewrite Ha. by rewrite IH.
Qed.

Lemma split_first_append (c : ascii) (x y : string) :
  occurs c x = false → split_first c (x +:+ String c y) = Some (x, y).
Proof.
  induction x as [|a x IH]; simpl.
  - intros _. by rewrite Ascii.eqb_refl.
  - intros [Ha Hx]%orb_false_iff. rewrite Ha. by rewrite IH.
Qed.

Lemma split_all_absent (c : ascii) (x : string) :
  occurs c x = false → split_all c x = [x].
Proof.
  induction x as [|a x IH]; simpl; [done|].
  intros [Ha Hx]%orb_false_iff. rewrite Ha. by rewrite IH.
Qed.

Lemma split_all_append (c : ascii) (x y : string) :
  occurs c x = false → split_all c (x +:+ String c y) = x :: split_all c y.
Proof.
  induction x as [|a x IH]; simpl.
  - intros _. by rewrite Ascii.eqb_refl.
  - intros [Ha Hx]%orb_false_iff. rewrite Ha. by rewrite IH.
Qed.

Lemma split_all_concat (c : ascii) (l : list string) :
  l ≠ [] → Forall (λ x, occurs c x = false) l →
  split_all c (String.concat (String c EmptyString) l) = l.
Proof.
  induction l as [|x l IH]; intros Hne Hall; [done|].
  apply Forall_cons in Hall as [Hx Hall].
  destruct l as [|y l].
  - by apply split_all_absent.
  - change (String.concat (String c EmptyString) (x :: y :: l))
      with (x +:+ String c (String.concat (String c EmptyString) (y :: l))).
    rewrite split_all_append by done. f_equal. by apply IH.
Qed.

Lemma prop_value_own (ps : properties) (n : string) (v : value) :
  NoDup (fst <$> ps) → (n, v) ∈ ps → prop_value ps n = v.
Proof.
  unfold prop_value. induction ps as [|[m w] ps IH]; intros Hnd Hin.
  - by apply elem_of_nil in Hin.
  - rewrite fmap_cons in Hnd. apply NoDup_cons in Hnd as [Hm Hnd]. simpl in *.
    destruct (String.eqb_spec m n) as [->|Hne]; simpl.
    + apply elem_of_cons in Hin as [[= ->]|Hin]; [done|].
      exfalso. apply Hm. apply list_elem_of_fmap. by exists (n, v).
    + apply elem_of_cons in Hin as [[= -> ->]|Hin]; [done|]. by apply IH.
Qed.

(** X17.  toURL(base, params) is the base itself when params is missing or
    has no properties.  Otherwise the URL can be read back: when the base has
    no [?], the names have no [&] and no [=], and the encoded values no [&]
    (encodeURIComponent escapes it), the part in front of the first [?] is the
    base and the pairs behind it are, in the order of the properties, each
    name with its encoded value. *)
Theorem toURL_reads_back
    (enc : string → string) (base : string) (ps : properties) :
  occurs "?" base = false →
  NoDup (fst <$> ps) →
  Forall (λ p, occurs "&" (fst p) = false ∧ occurs "=" (fst p) = false ∧
               occurs "&" (enc (ToString (snd p))) = false) ps →
  toURL enc base None = base ∧
  toURL enc base (Some []) = base ∧
  parse_url (toURL enc base (Some ps))
  = (base, (λ p, (fst p, enc (ToString (snd p)))) <$> ps).
Proof.
  intros Hb Hnd Hall. split_and!; [done|done|].
  destruct ps as [|p ps]; [by unfold parse_url; simpl; rewrite split_first_absent|].
  set (l := p :: ps) in *.
  assert (Hpairs : (λ n, String.concat "=" [n; enc (ToString (prop_value l n))]) <$> (fst <$> l)
                   = (λ p, fst p +:+ String "=" (enc (ToString (snd p)))) <$> l).
  { rewrite <- list_fmap_compose. apply Forall_fmap_ext_1, Forall_forall.
    intros [n v] Hin. simpl. by rewrite (prop_value_own l n v Hnd Hin). }
  assert (Hurl : toURL enc base (Some l)
                 = base +:+ String "?" (String.concat "&"
                     ((λ n, String.concat "=" [n; enc (ToString (prop_value l n))])
                        <$> (fst <$> l)))) by done.
  rewrite Hurl. unfold parse_url.
  rewrite split_first_append by done. f_equal.
  rewrite Hpairs. rewrite split_all_concat.
  - rewrite <- list_fmap_compose. apply Forall_fmap_ext_1, Forall_forall.
    intros [n v] Hin. simpl. unfold parse_pair.
    apply (proj1 (Forall_forall _ _) Hall) in Hin as (_ & Heq & _). simpl in Heq.
    by rewrite split_first_append.
  - by subst l.
  - apply Forall_fmap, Forall_forall. intros [n v] Hin. simpl.
    apply (proj1 (Forall_forall _ _) Hall) in Hin as (Hn & _ & Hv). simpl in *.
    clear -Hn Hv. induction n as [|a n IH]; simpl in *.
    + done.
    + apply orb_false_iff in Hn as [Ha Hn]. rewrite Ha. by apply IH.
Qed.

Lemma toURL_reads_back_witness :
  let ps := [("q", VStr "motown"); ("page", VNum 2)] in
  toURL id "/search" None = "/search" ∧
  toURL id "/search" (Some []) = "/search" ∧
  parse_url (toURL id "/search" (Some ps))
  = ("/search", (λ p, (fst p, id (ToString (snd p)))) <$> ps).
Proof.
  intros ps. apply (toURL_reads_back id "/search" ps).
  - reflexivity.
  - by apply (bool_decide_unpack _).
  - repeat constructor.
Defined.

Example toURL_example :
  toURL id "/search" (Some [("q", VStr "motown"); ("page", VNum 2)])
  = "/search?q=motown&page=2".
Proof. reflexivity. Qed.

(** ** resourceExists *)

(** X18.  resourceExists answers true exactly when hasKey answers true for the
    key (a hasKey that throws counts as false), and the slash in front of a
    path is optional: a path without one is looked up under the same key,
    Files/path, as the path with one. *)
Theorem resourceExists_leading_slash (hasKey : string → option bool) (path : string) :
  leading_slash path = false →
  resourceExists hasKey (String "/" path) = resourceExists hasKey path ∧
  (resourceExists hasKey path = true ↔ hasKey ("Files/" +:+ path) = Some true).
Proof.
  intros Hp. unfold resourceExists. rewrite Hp. cbn [leading_slash].
  rewrite Ascii.eqb_refl. split; [done|].
  change ("Files/" +:+ path) with ("Files" +:+ String "/" path).
  destruct (hasKey _) as [[]|]; split; congruence.
Qed.

Lemma resourceExists_leading_slash_witness :
  let hasKey := λ k, if String.eqb k "Files/js/app.js" then Some true else None in
  resourceExists hasKey "/js/app.js" = resourceExists hasKey "js/app.js" ∧
  (resourceExists hasKey "js/app.js" = true ↔ hasKey ("Files/" +:+ "js/app.js") = Some true).
Proof. intros hasKey. by apply (resourceExists_leading_slash hasKey "js/app.js"). Defined.

(** ** findParent *)

Lemma findParent_from_split (n : node) (before after : list node) (e : node) :
  ancestors n = before ++ e :: after →
  Forall (λ x, owner x = false) before →
  owner e = true →
  findParent_from n = Normal (Some e).
Proof.
  revert before.
  induction n as [|attrs|attrs p IH] using node_parent_ind;
    intros before Hsplit Hbefore He.
  - destruct before as [|b before]; simpl in Hsplit.
    + by injection Hsplit as <- _.
    + injection Hsplit as _ Hsplit. by destruct before.
  - destruct before as [|b before]; simpl in Hsplit.
    + injection Hsplit as <- _. simpl in *. by rewrite He.
    + injection Hsplit as _ Hsplit. by destruct before.
  - destruct before as [|b before]; simpl in Hsplit.
    + injection Hsplit as <- _. simpl in *. by rewrite He.
    + injection Hsplit as <- Hsplit. apply Forall_cons in Hbefore as [Hb Hbefore].
      simpl in Hb |- *. rewrite Hb. by apply (IH before).
Qed.

Lemma findParent_from_found (n e : node) :
  findParent_from n = Normal (Some e) →
  ∃ before after,
    ancestors n = before ++ e :: after ∧
    Forall (λ x, owner x = false) before ∧ owner e = true.
Proof.
  induction n as [|attrs|attrs p IH] using node_parent_ind; intros Hf.
  - done.
  - simpl in Hf. destruct (hasAttribute attrs _) eqn:Ha; [|done].
    injection Hf as <-. by exists [], [].
  - simpl in Hf. destruct (hasAttribute attrs _) eqn:Ha.
    + injection Hf as <-. by exists [], (ancestors p).
    + destruct (IH Hf) as (before & after & Hsplit & Hbefore & He).
      exists (Element attrs (Some p) :: before), after. split_and!; [|by constructor|done].
      cbn [ancestors]. by rewrite Hsplit.
Qed.

Lemma findParent_from_none (n : node) :
  Forall (λ x, owner x = false) (ancestors n) →
  findParent_from n
  = match last (ancestors n) with
    | Some Document => Throw TypeError
    | _ => Normal None
    end.
Proof.
  induction n as [|attrs|attrs p IH] using node_parent_ind; intros Hall.
  - done.
  - apply Forall_cons in Hall as [Ha _]. simpl in Ha |- *. by rewrite Ha.
  - cbn [ancestors] in Hall. apply Forall_cons in Hall as [Ha Hall].
    simpl in Ha. cbn [findParent_from]. rewrite Ha, (IH Hall).
    cbn [ancestors]. by destruct p as [? []|].
Qed.

(** X19.  findParent(startEl) returns an element exactly when it is the
    nearest of startEl and its ancestors that has the attribute
    data-motown-owner-index: nothing in front of it on the way up has it.  An
    element that is returned is returned again when the search starts from
    it. *)
Theorem findParent_nearest_owner (n e : node) :
  (findParent (Some n) = Normal (Some e) ↔
   ∃ before after,
     ancestors n = before ++ e :: after ∧
     Forall (λ x, owner x = false) before ∧ owner e = true) ∧
  (findParent (Some n) = Normal (Some e) → findParent (Some e) = Normal (Some e)).
Proof.
  split; [split|].
  - apply findParent_from_found.
  - intros (before & after & Hsplit & Hbefore & He).
    by apply (findParent_from_split n before after).
  - intros (_ & _ & _ & _ & He)%findParent_from_found.
    destruct e as [attrs p|]; [|done]. simpl in *. by rewrite He.
Qed.

Lemma findParent_nearest_owner_witness :
  let view := Element ["class"; "data-motown-owner-index"] (Some Document) in
  let list := Element ["data-motown-owner-index"] (Some view) in
  let button := Element ["id"] (Some list) in
  findParent (Some button) = Normal (Some list) ∧
  findParent (Some list) = Normal (Some list).
Proof.
  intros view list button.
  destruct (findParent_nearest_owner button list) as [[_ Hfound] Hagain].
  assert (Hb : findParent (Some button) = Normal (Some list)).
  { apply Hfound. exists [button], [view; Document]. by repeat constructor. }
  split; [exact Hb|exact (Hagain Hb)].
Defined.

(** X20.  When neither startEl nor any of its ancestors has the attribute,
    findParent returns null only if the way up ends at an element without a
    parent; if it ends at the document (or another node that is no element),
    the call of hasAttribute on it throws a TypeError.  For a missing startEl
    the result is null. *)
Theorem findParent_without_owner (n : node) :
  Forall (λ x, owner x = false) (ancestors n) →
  findParent None = Normal None ∧
  findParent (Some n)
  = match last (ancestors n) with
    | Some Document => Throw TypeError
    | _ => Normal None
    end.
Proof. intros Hall. split; [done|]. by apply findParent_from_none. Qed.

Lemma findParent_without_owner_witness :
  let html := Element ["lang"] (Some Document) in
  let body := Element [] (Some html) in
  findParent None = Normal None ∧
  findParent (Some body) = Throw TypeError.
Proof.
  intros html body. apply (findParent_without_owner body). repeat constructor.
Defined.

(** * Properties of the application controller *)

Lemma add_page_lookup (ps : list page) (defs : gmap string object) (k : string) :
  foldl add_page defs ps !! k
  = match last (filter (λ p, page_name p = Some k) ps) with
    | Some p => Some (page_object p)
    | None => defs !! k
    end.
Proof.
  revert defs. induction ps as [|p ps IH]; intros defs; [done|].
  cbn [foldl]. rewrite IH. rewrite filter_cons.
  destruct (decide (page_name p = Some k)) as [Hk|Hk].
  - rewrite last_cons. destruct (last (filter _ ps)); [done|].
    destruct p as [n|o|]; simpl in *; [| |done].
    + injection Hk as ->. by rewrite lookup_insert_eq.
    + injection Hk as <-. by rewrite lookup_insert_eq.
  - destruct (last (filter _ ps)); [done|].
    destruct p as [n|o|]; simpl in *; [| |done].
    + rewrite lookup_insert_ne; [done|congruence].
    + rewrite lookup_insert_ne; [done|congruence].
Qed.

Lemma AppController_pageDefs {function : Type}
    (c : config) (ps : list page) (a : app function) :
  pages c = Some ps →
  AppController c = Returns a →
  _pageDefs a = foldl add_page ∅ ps.
Proof.
  intros Hps Ha. unfold AppController in Ha. rewrite Hps in Ha.
  destruct ps as [|p ps]; [discriminate Ha|]. by injection Ha as <-.
Qed.

(** X21.  The definition registered for a name is that of the last entry of
    pages with the name: the entry itself when it is an object (under its
    name property, converted to a string), the empty definition when it is a
    string; entries that are neither register nothing. *)
Theorem pageDefs_last_entry_wins {function : Type}
    (c : config) (ps : list page) (a : app function) (k : string) :
  pages c = Some ps →
  AppController c = Returns a →
  _pageDefs a !! k = page_object <$> last (filter (λ p, page_name p = Some k) ps).
Proof.
  intros Hps Ha. rewrite (AppController_pageDefs c ps a Hps Ha).
  rewrite add_page_lookup. destruct (last _); [done|apply lookup_empty].
Qed.

Lemma pageDefs_last_entry_wins_witness :
  let ps := [PageName "home"; PageDef {[ "name" := VStr "home"; "view" := VStr "main" ]};
             PageOther] in
  let a : app unit := App (foldl add_page ∅ ps) ∅ None in
  _pageDefs a !! "home"
  = page_object <$> last (filter (λ p, page_name p = Some "home") ps).
Proof.
  intros ps a.
  exact (pageDefs_last_entry_wins (Config (Some ps) VUndefined) ps a "home"
           eq_refl eq_refl).
Defined.

(** X22.  onBeforeNavigate prevents the navigation exactly when no entry of
    pages has the location as its name and Object.prototype has no member of
    that name either: for a location such as constructor the inherited member
    is found and the navigation goes on. *)
Theorem onBeforeNavigate_prevents_unknown_pages {function : Type}
    (prototype : string → option function)
    (c : config) (ps : list page) (a : app function) (location : string) :
  pages c = Some ps →
  AppController c = Returns a →
  onBeforeNavigate prototype location a = true
  ↔ Forall (λ p, page_name p ≠ Some location) ps ∧ prototype location = None.
Proof.
  intros Hps Ha. unfold onBeforeNavigate, pageDef.
  rewrite (AppController_pageDefs c ps a Hps Ha), add_page_lookup, lookup_empty.
  set (l := ps).
  destruct (last (filter _ l)) as [q|] eqn:El.
  - split; [done|]. intros [Hall _]. exfalso.
    apply last_Some_elem_of, list_elem_of_filter in El as [Hq Hin].
    by apply (proj1 (Forall_forall _ _) Hall q).
  - apply last_None in El.
    assert (Hall : Forall (λ p, page_name p ≠ Some location) l).
    { apply Forall_forall. intros q Hin Hq.
      assert (Hf : q ∈ filter (λ p, page_name p = Some location) l)
        by by apply list_elem_of_filter.
      rewrite El in Hf. by apply elem_of_nil in Hf. }
    destruct (prototype location); split; try done. by intros [_ ?].
Qed.

Lemma onBeforeNavigate_prevents_unknown_pages_witness :
  let prototype := λ n, if String.eqb n "constructor" then Some tt else None in
  let ps := [PageName "home"; PageDef {[ "name" := VStr "detail" ]}] in
  let a : app unit := App (foldl add_page ∅ ps) ∅ None in
  onBeforeNavigate prototype "settings" a = true ∧
  onBeforeNavigate prototype "detail" a = false ∧
  onBeforeNavigate prototype "constructor" a = false.
Proof.
  intros prototype ps a.
  pose proof (λ l, onBeforeNavigate_prevents_unknown_pages
                     prototype (Config (Some ps) VUndefined) ps a l
                     eq_refl eq_refl) as H.
  split_and!.
  - apply H. split; [|done]. by repeat constructor.
  - apply not_true_is_false. intros [Hall _]%H.
    apply Forall_cons in Hall as [_ Hall]. by apply Forall_cons in Hall as [Hd _].
  - apply not_true_is_false. by intros [_ Hp]%H.
Defined.

(** X23.  A controller that has been resolved is cached: when
    _resolveController(name) returns a constructor, a second call returns the
    same one and changes nothing, so no script element is appended again and
    the host is not asked again.  The first call leaves the page definitions
    as they are. *)
Theorem resolveController_caches {function window : Type}
    (prototype : string → option function) (PageController : function)
    (toUpperCase : string → string) (hasKey : string → option bool)
    (appendScript : string → window → window)
    (getMember : value → window → outcome (option function))
    (member : option string → string → window → option function)
    (name : string) (a a' : app function) (w w' : window) (ctor : function) :
  _resolveController prototype PageController toUpperCase hasKey appendScript
    getMember member name a w = (Returns ctor, a', w') →
  _resolveController prototype PageController toUpperCase hasKey appendScript
    getMember member name a' w' = (Returns ctor, a', w') ∧
  _pageDefs a' = _pageDefs a.
Proof.
  unfold _resolveController.
  destruct (pageDef prototype a name) as [def|] eqn:Hdef; [|done].
  destruct (cachedCtor prototype a _) as [f|] eqn:Hc.
  { intros [= -> -> ->]. by rewrite Hdef, Hc. }
  destruct (or_else _ _) as [| | | |key] eqn:Hkey; try done.
  set (w1 := if resourceExists hasKey (controller_path key) then _ else w).
  set (res := if truthy (get_prop def "controllerClass") then _ else _).
  destruct res as [f|e]; [|done]. intros [= -> <- <-]. cbn [_pageDefs].
  split; [|done].
  assert (Hdef' : pageDef prototype
            {| _pageDefs := _pageDefs a;
               _controllerCtorMap := <[key := ctor]> (_controllerCtorMap a);
               app_namespace := app_namespace a |} name = Some def) by done.
  rewrite Hdef', Hkey. unfold cachedCtor. cbn [_controllerCtorMap ToString].
  by rewrite lookup_insert_eq.
Qed.

Lemma resolveController_caches_witness :
  let prototype : string → option string := λ _, None in
  let toUpperCase := λ s, if String.eqb s "h" then "H" else s in
  let path := "/controllers/HomeController.js" in
  let hasKey := λ k, Some (String.eqb k ("Files" +:+ path)) in
  let getMember : value → list string → outcome (option string) :=
    λ _ _, Returns None in
  let member : option string → string → list string → option string :=
    λ _ n w, if bool_decide (path ∈ w) && String.eqb n "HomeController"
             then Some "App.HomeController" else None in
  let a := App {[ "home" := ∅ ]} {[ "HomeController" := "App.HomeController" ]} None in
  _resolveController prototype "MT.PageController" toUpperCase hasKey cons
    getMember member "home" a [path] = (Returns "App.HomeController", a, [path]) ∧
  _pageDefs a = {[ "home" := ∅ ]}.
Proof.
  intros prototype toUpperCase path hasKey getMember member a.
  exact (resolveController_caches prototype "MT.PageController" toUpperCase hasKey
           cons getMember member "home" (App {[ "home" := ∅ ]} ∅ None) a [] [path]
           "App.HomeController" eq_refl).
Defined.

Lemma replace_absent (c d : ascii) (x : string) :
  occurs c x = false → replace c d x = x.
Proof.
  induction x as [|a x IH]; simpl; [done|].
  intros [Ha Hx]%orb_false_iff. rewrite Ha. by rewrite IH.
Qed.

Lemma replace_first (c d : ascii) (x y : string) :
  occurs c x = false → replace c d (x +:+ String c y) = x +:+ String d y.
Proof.
  induction x as [|a x IH]; simpl.
  - intros _. by rewrite Ascii.eqb_refl.
  - intros [Ha Hx]%orb_false_iff. rewrite Ha. by rewrite IH.
Qed.

Lemma append_assoc (x y z : string) : (x +:+ y) +:+ z = x +:+ (y +:+ z).
Proof.
  induction x as [|a x IH]; [done|].
  change (String a ((x +:+ y) +:+ z) = String a (x +:+ (y +:+ z))). by rewrite IH.
Qed.

(** X24.  The path of a controller's script is /controllers/ + key + .js with
    the first dot of the key, and only the first, turned into a slash: the
    dots behind it stay, and a key without a dot is used as it is. *)
Theorem controller_path_first_dot (x y : string) :
  occurs "." x = false →
  controller_path x = "/controllers/" +:+ x +:+ ".js" ∧
  controller_path (x +:+ String "." y)
  = "/controllers/" +:+ x +:+ String "/" (y +:+ ".js").
Proof.
  intros Hx. unfold controller_path.
  rewrite replace_absent, replace_first by done.
  by rewrite append_assoc.
Qed.

Lemma controller_path_first_dot_witness :
  controller_path "a" = "/controllers/a.js" ∧
  controller_path "a.b.c.ControllerName" = "/controllers/a/b.c.ControllerName.js".
Proof. exact (controller_path_first_dot "a" "b.c.ControllerName" eq_refl). Defined.
